(** * Code generation for symbolic expressions (drake/common/symbolic_codegen.cc)

    A shallow embedding of the code generator of [symbolic_codegen.cc]: the
    visitor [CodeGenVisitor] that lowers a symbolic expression to C text, the
    scalar entry point [CodeGen] and the two internal helpers [CodeGenData] and
    [CodeGenMeta] that stream a batch function and its meta data into a sink.

    - C++ strings are [string]; an output stream is the text written to it.
    - [double] is the IEEE 754 binary64 format: zeros, infinities, NaNs with
      their sign bit, and finite numbers [m * 2^e], compared and rounded by
      the operations of [SpecFloat] with [prec = 53] and [emax = 1024];
      [std::to_string] and [operator<<] on a double are the [printf]
      conversions [%f] and [%g] and are computed exactly on the binary value.
    - [size_t] values are [N], [int] values are [Z].
    - A thrown [std::runtime_error] is the [Throws] case of [outcome].
    - The order in which C++ evaluates the operands of [+] and (before C++17)
      of [<<] is not fixed by the language; it is a parameter of the model. *)

From Stdlib Require Import ZArith NArith String Ascii List Decimal DecimalString.
From Stdlib Require Import DecimalZ DecimalN DecimalPos QArith Qabs Lia.
From Stdlib Require Import Floats.SpecFloat.
From stdpp Require Import gmap strings.

Local Open Scope Z_scope.

(** ** Text *)

(** The line feed of the ["\n"] escapes of the source. *)
Definition nl : string := String (ascii_of_nat 10) EmptyString.

(** Decimal text of an unsigned and of a signed integer, as [std::to_string]
    and [operator<<] print a [size_t] and an [int]. *)
Definition dec_of_N (n : N) : string := NilEmpty.string_of_uint (N.to_uint n).
Definition dec_of_Z (z : Z) : string := NilEmpty.string_of_int (Z.to_int z).

(** The character of a digit and the digit of a character. *)
Definition digit_char (d : Z) : ascii :=
  match d with
  | 0 => "0" | 1 => "1" | 2 => "2" | 3 => "3" | 4 => "4"
  | 5 => "5" | 6 => "6" | 7 => "7" | 8 => "8" | _ => "9"
  end%char.

Definition digit_of (c : ascii) : option N :=
  (if Ascii.eqb c "0" then Some 0 else if Ascii.eqb c "1" then Some 1
   else if Ascii.eqb c "2" then Some 2 else if Ascii.eqb c "3" then Some 3
   else if Ascii.eqb c "4" then Some 4 else if Ascii.eqb c "5" then Some 5
   else if Ascii.eqb c "6" then Some 6 else if Ascii.eqb c "7" then Some 7
   else if Ascii.eqb c "8" then Some 8 else if Ascii.eqb c "9" then Some 9
   else None)%N.

(** The last [width] decimal digits of [n]. *)
Fixpoint digits_fixed (width : nat) (n : Z) : string :=
  match width with
  | O => ""
  | S w => digits_fixed w (n / 10) +:+ String (digit_char (n mod 10)) ""
  end.

(** Reading a text of digits after the number [acc]. *)
Fixpoint read_digits (s : string) (acc : N) : option N :=
  match s with
  | EmptyString => Some acc
  | String c s' =>
      match digit_of c with
      | Some d => read_digits s' (10 * acc + d)%N
      | None => None
      end
  end.

(** Reading a decimal text back. *)
Definition N_of_dec (s : string) : option N :=
  match s with
  | EmptyString => None
  | _ => read_digits s 0
  end.

Definition Z_of_dec (s : string) : option Z :=
  match s with
  | String c s' =>
      if Ascii.eqb c "-" then option_map (fun n => - Z.of_N n) (N_of_dec s')
      else option_map Z.of_N (N_of_dec s)
  | EmptyString => None
  end.

Fixpoint zeros (n : nat) : string :=
  match n with
  | O => ""
  | S n' => "0" +:+ zeros n'
  end.

Definition pad_left (width : nat) (s : string) : string :=
  zeros (width - String.length s) +:+ s.

(** Removal of the trailing zeros of a fractional part. *)
Fixpoint strip_zeros (s : string) : string :=
  match s with
  | EmptyString => EmptyString
  | String c s' =>
      match strip_zeros s' with
      | EmptyString => if Ascii.eqb c "0" then EmptyString else String c EmptyString
      | t => String c t
      end
  end.

(** ** Doubles and their text *)

(** A double. A NaN is kept with its sign bit, which [printf] shows, and
    without its payload, which [printf] does not show. *)
Inductive double : Type :=
  | B754_zero (s : bool)
  | B754_infinity (s : bool)
  | B754_nan (s : bool)
  | B754_finite (s : bool) (m : positive) (e : Z).

Definition prec : Z := 53.
Definition emax : Z := 1024.

(** To and from the floats of [SpecFloat], whose NaN has no sign. The
    roundings used below, of an integer and of a positive quotient, give no
    NaN. *)
Definition spec_of_double (x : double) : spec_float :=
  match x with
  | B754_zero s => S754_zero s
  | B754_infinity s => S754_infinity s
  | B754_nan _ => S754_nan
  | B754_finite s m e => S754_finite s m e
  end.

Definition double_of_spec (x : spec_float) : double :=
  match x with
  | S754_zero s => B754_zero s
  | S754_infinity s => B754_infinity s
  | S754_nan => B754_nan false
  | S754_finite s m e => B754_finite s m e
  end.

Definition double_of_Z (z : Z) : double :=
  double_of_spec (binary_normalize prec emax z 0 false).

(** The comparison [==] of two doubles. *)
Definition double_eqb (x y : double) : bool :=
  SFeqb (spec_of_double x) (spec_of_double y).

(** The literal [1.0]. *)
Definition one : double := B754_finite false 4503599627370496 (-52).

(** Nearest integer to [n / d], ties to the even one ([0 < d]). *)
Definition round_half_even (n d : Z) : Z :=
  let q := n / d in
  match 2 * (n mod d) ?= d with
  | Lt => q
  | Gt => q + 1
  | Eq => if Z.even q then q else q + 1
  end.

(** [m * 2^e] as a fraction of two positive integers. *)
Definition fraction (m : positive) (e : Z) : Z * Z :=
  if 0 <=? e then (Z.pos m * 2 ^ e, 1) else (Z.pos m, 2 ^ (- e)).

(** [m * 2^e * 10^k] rounded to the nearest integer. *)
Definition scaled (m : positive) (e : Z) (k : Z) : Z :=
  let '(n, d) := fraction m e in
  if 0 <=? k then round_half_even (n * 10 ^ k) d
  else round_half_even n (d * 10 ^ (- k)).

Definition sign_text (s : bool) : string := if s then "-" else "".

Definition with_point (int_part frac_part : string) : string :=
  match frac_part with
  | EmptyString => int_part
  | _ => int_part +:+ "." +:+ frac_part
  end.

(** Integer and fractional digits of [N / 10^p] printed with [p] decimals. *)
Definition fixed_parts (p : nat) (N : Z) : string * string :=
  let u := 10 ^ Z.of_nat p in
  (dec_of_Z (N / u), digits_fixed p (N mod u)).

(** The conversion [%.pf] of [printf]. *)
Definition printf_f (p : nat) (x : double) : string :=
  match x with
  | B754_nan s => sign_text s +:+ "nan"
  | B754_infinity s => sign_text s +:+ "inf"
  | B754_zero s => sign_text s +:+ uncurry with_point (fixed_parts p 0)
  | B754_finite s m e =>
      sign_text s +:+ uncurry with_point (fixed_parts p (scaled m e (Z.of_nat p)))
  end.

Fixpoint ilog10_below (fuel : nat) (n d : Z) (j : Z) : Z :=
  match fuel with
  | O => - j
  | S fuel' => if d <=? n then - j else ilog10_below fuel' (n * 10) d (j + 1)
  end.

(** The [k] with [10^k <= n / d < 10^(k+1)], for positive [n] and [d]. *)
Definition ilog10 (n d : Z) : Z :=
  if d <=? n then Z.of_nat (String.length (dec_of_Z (n / d))) - 1
  else ilog10_below (S (Z.to_nat (Z.log2 d))) n d 0.

(** The [P] significant digits and the decimal exponent [X] that the
    conversion [%e] with precision [P - 1] would print. *)
Definition exponent_e (P : nat) (m : positive) (e : Z) : Z * Z :=
  let '(n, d) := fraction m e in
  let k := ilog10 n d in
  let N := scaled m e (Z.of_nat P - 1 - k) in
  if N =? 10 ^ Z.of_nat P then (10 ^ (Z.of_nat P - 1), k + 1) else (N, k).

Definition exponent_text (X : Z) : string :=
  (if X <? 0 then "-" else "+") +:+ pad_left 2 (dec_of_Z (Z.abs X)).

(** The conversion [%.Pg] of [printf] for [0 < P]: style [f] with precision
    [P - 1 - X] when [-4 <= X < P], style [e] with precision [P - 1]
    otherwise, trailing zeros and a trailing point removed. *)
Definition printf_g (P : nat) (x : double) : string :=
  match x with
  | B754_nan s => sign_text s +:+ "nan"
  | B754_infinity s => sign_text s +:+ "inf"
  | B754_zero s => sign_text s +:+ "0"
  | B754_finite s m e =>
      let '(N, X) := exponent_e P m e in
      if (-4 <=? X) && (X <? Z.of_nat P) then
        let '(i, f) := fixed_parts (Z.to_nat (Z.of_nat P - 1 - X))
                                   (scaled m e (Z.of_nat P - 1 - X)) in
        sign_text s +:+ with_point i (strip_zeros f)
      else
        let '(i, f) := fixed_parts (P - 1) N in
        sign_text s +:+ with_point i (strip_zeros f) +:+ "e" +:+ exponent_text X
  end.

(** [std::to_string(double)] is [sprintf] with ["%f"]. *)
Definition to_string_double : double -> string := printf_f 6.

(** [operator<<] of a stream in its initial state (no float field set,
    precision 6) prints a double with ["%g"]. *)
Definition put_double : double -> string := printf_g 6.

(** ** Symbolic expressions

    The expression classes of the symbolic library, which the generator
    reads through accessors only. *)

(** The class [Variable] ([Variable] is a keyword here). *)
Record SymVariable : Type := { get_id : N; get_name : string }.

(** The condition of an if-then-else. The generator never reads it; only the
    propositional formulas are kept (relational atoms would make the two
    types mutually recursive). *)
Inductive Formula : Type :=
  | FormulaTrue
  | FormulaFalse
  | FormulaVar (v : SymVariable)
  | FormulaNot (f : Formula)
  | FormulaAnd (f1 f2 : Formula)
  | FormulaOr (f1 f2 : Formula).

Inductive UnaryKind : Type :=
  | Log | Abs | Exp | Sqrt | Sin | Cos | Tan | Asin | Acos | Atan
  | Sinh | Cosh | Tanh | Ceil | Floor.

Inductive BinaryKind : Type :=
  | Div | Pow | Atan2 | Min | Max.

(** The two maps of a sum and of a product are [std::map]s; they are kept as
    the list of their entries in iteration order. *)
#[warnings="-register-all"]
Inductive Expression : Type :=
  | ExpressionVar (v : SymVariable)
  | ExpressionConstant (c : double)
  | ExpressionAdd (constant : double) (expr_to_coeff_map : list (Expression * double))
  | ExpressionMul (constant : double)
                  (base_to_exponent_map : list (Expression * Expression))
  | UnaryExpression (k : UnaryKind) (e : Expression)
  | BinaryExpression (k : BinaryKind) (e1 e2 : Expression)
  | ExpressionIfThenElse (f_cond : Formula) (e_then e_else : Expression)
  | ExpressionUninterpretedFunction (name : string) (vars : list SymVariable).

(** Modelled from the spec: [is_one] of the symbolic library, "a factor whose
    exponent is the literal constant 1". *)
Definition is_one (e : Expression) : bool :=
  match e with
  | ExpressionConstant c => double_eqb c one
  | _ => false
  end.

(** ** Exceptions and evaluation order *)

Inductive runtime_error : Type := RuntimeError (what : string).

Inductive outcome (A : Type) : Type :=
  | Returns (a : A)
  | Throws (err : runtime_error).
Arguments Returns {A} a.
Arguments Throws {A} err.

Definition bind {A B : Type} (c : outcome A) (k : A -> outcome B) : outcome B :=
  match c with
  | Returns a => k a
  | Throws err => Throws err
  end.

Notation "x <- c ;; k" := (bind c (fun x => k))
  (at level 100, c at next level, right associativity).

Inductive operand_order : Type := LeftToRight | RightToLeft.

(** [plus_order] is the order in which the two operands of a [+] are
    evaluated, [shift_order] the one of the operands of a [<<]
    ([LeftToRight] from C++17 on). *)
Record sequencing : Type :=
  { plus_order : operand_order; shift_order : operand_order }.

(** Two operands of one operator, evaluated in the given order. *)
Definition both {A B : Type} (o : operand_order) (a : outcome A) (b : outcome B)
  : outcome (A * B) :=
  match o with
  | LeftToRight => x <- a ;; y <- b ;; Returns (x, y)
  | RightToLeft => y <- b ;; x <- a ;; Returns (x, y)
  end.

(** The three errors of the spec and the exceptions that carry them. *)
Definition UnboundVariable : runtime_error :=
  RuntimeError "Variable index is not found.".
Definition UnsupportedIfThenElse : runtime_error :=
  RuntimeError "Codegen does not support if-then-else expressions.".
Definition UnsupportedUninterpretedFunction : runtime_error :=
  RuntimeError "Codegen does not support uninterpreted functions.".

Definition UnsupportedConstruct (err : runtime_error) : Prop :=
  err = UnsupportedIfThenElse \/ err = UnsupportedUninterpretedFunction.

(** ** The map from variable identities to indices *)

(** [emplace] of an [unordered_map]: no effect when the key is present. *)
Definition emplace (k v : N) (m : gmap N N) : gmap N N :=
  match m !! k with
  | Some _ => m
  | None => <[k := v]> m
  end.

(** The loop [for (i = 0; i < parameters.size(); ++i)
    id_to_idx_map.emplace(parameters[i].get_id(), i)], from index [i] on. *)
Fixpoint emplace_parameters (parameters : list SymVariable) (i : N) (m : gmap N N)
  : gmap N N :=
  match parameters with
  | [] => m
  | p :: rest => emplace_parameters rest (N.succ i) (emplace (get_id p) i m)
  end.

Definition build_id_to_idx_map (parameters : list SymVariable) : gmap N N :=
  emplace_parameters parameters 0%N ∅.

(** ** CodeGenVisitor *)

Module CodeGenVisitor.

Section Visit.
Variable ord : sequencing.
Variable id_to_idx_map_ : gmap N N.
(** The recursive call [CodeGen(e)] of the visit functions. *)
Variable CodeGen : Expression -> outcome string.

Definition VisitVariable (v : SymVariable) : outcome string :=
  match id_to_idx_map_ !! get_id v with
  | None => Throws UnboundVariable
  | Some idx => Returns ("p[" +:+ dec_of_N idx +:+ "]")
  end.

Definition VisitConstant (c : double) : outcome string :=
  Returns (to_string_double c).

(** The loop over [expr_to_coeff_map]; [oss] is the text in the stream. The
    stream is a local of the function: when an exception unwinds, what was
    written to it is lost. *)
Fixpoint VisitAddition_loop (items : list (Expression * double)) (oss : string)
  : outcome string :=
  match items with
  | [] => Returns oss
  | (e_i, c_i) :: rest =>
      let oss := oss +:+ " + " in
      if double_eqb c_i one then
        s <- CodeGen e_i ;;
        VisitAddition_loop rest (oss +:+ s)
      else
        s <- CodeGen e_i ;;
        VisitAddition_loop rest
          (oss +:+ "(" +:+ put_double c_i +:+ " * " +:+ s +:+ ")")
  end.

Definition VisitAddition (c : double) (expr_to_coeff_map : list (Expression * double))
  : outcome string :=
  oss <- VisitAddition_loop expr_to_coeff_map ("(" +:+ put_double c) ;;
  Returns (oss +:+ ")").

Fixpoint VisitMultiplication_loop (items : list (Expression * Expression))
  (oss : string) : outcome string :=
  match items with
  | [] => Returns oss
  | (e_1, e_2) :: rest =>
      let oss := oss +:+ " * " in
      if is_one e_2 then
        s <- CodeGen e_1 ;;
        VisitMultiplication_loop rest (oss +:+ s)
      else
        s <- both (shift_order ord) (CodeGen e_1) (CodeGen e_2) ;;
        VisitMultiplication_loop rest
          (oss +:+ "pow(" +:+ s.1 +:+ ", " +:+ s.2 +:+ ")")
  end.

Definition VisitMultiplication (c : double)
  (base_to_exponent_map : list (Expression * Expression)) : outcome string :=
  oss <- VisitMultiplication_loop base_to_exponent_map ("(" +:+ put_double c) ;;
  Returns (oss +:+ ")").

Definition VisitUnary (f : string) (e : Expression) : outcome string :=
  s <- CodeGen e ;;
  Returns (f +:+ "(" +:+ s +:+ ")").

Definition VisitBinary (f : string) (e1 e2 : Expression) : outcome string :=
  s <- both (plus_order ord) (CodeGen e1) (CodeGen e2) ;;
  Returns (f +:+ "(" +:+ s.1 +:+ ", " +:+ s.2 +:+ ")").

Definition VisitPow := VisitBinary "pow".

Definition VisitDivision (e1 e2 : Expression) : outcome string :=
  s <- both (plus_order ord) (CodeGen e1) (CodeGen e2) ;;
  Returns ("(" +:+ s.1 +:+ " / " +:+ s.2 +:+ ")").

Definition VisitAbs := VisitUnary "fabs".
Definition VisitLog := VisitUnary "log".
Definition VisitExp := VisitUnary "exp".
Definition VisitSqrt := VisitUnary "sqrt".
Definition VisitSin := VisitUnary "sin".
Definition VisitCos := VisitUnary "cos".
Definition VisitTan := VisitUnary "tan".
Definition VisitAsin := VisitUnary "asin".
Definition VisitAcos := VisitUnary "acos".
Definition VisitAtan := VisitUnary "atan".
Definition VisitAtan2 := VisitBinary "atan2".
Definition VisitSinh := VisitUnary "sinh".
Definition VisitCosh := VisitUnary "cosh".
Definition VisitTanh := VisitUnary "tanh".
Definition VisitMin := VisitBinary "fmin".
Definition VisitMax := VisitBinary "fmax".
Definition VisitCeil := VisitUnary "ceil".
Definition VisitFloor := VisitUnary "floor".

Definition VisitIfThenElse : outcome string := Throws UnsupportedIfThenElse.

Definition VisitUninterpretedFunction : outcome string :=
  Throws UnsupportedUninterpretedFunction.
End Visit.

(** [CodeGenVisitor::CodeGen]: the dispatch of [VisitExpression] on the kind
    of [e]. *)
Fixpoint CodeGen (ord : sequencing) (id_to_idx_map_ : gmap N N) (e : Expression)
  {struct e} : outcome string :=
  let self := CodeGen ord id_to_idx_map_ in
  match e with
  | ExpressionVar v => VisitVariable id_to_idx_map_ v
  | ExpressionConstant c => VisitConstant c
  | ExpressionAdd c items => VisitAddition self c items
  | ExpressionMul c items => VisitMultiplication ord self c items
  | UnaryExpression k a =>
      match k with
      | Log => VisitLog self a
      | Abs => VisitAbs self a
      | Exp => VisitExp self a
      | Sqrt => VisitSqrt self a
      | Sin => VisitSin self a
      | Cos => VisitCos self a
      | Tan => VisitTan self a
      | Asin => VisitAsin self a
      | Acos => VisitAcos self a
      | Atan => VisitAtan self a
      | Sinh => VisitSinh self a
      | Cosh => VisitCosh self a
      | Tanh => VisitTanh self a
      | Ceil => VisitCeil self a
      | Floor => VisitFloor self a
      end
  | BinaryExpression k a b =>
      match k with
      | Div => VisitDivision ord self a b
      | Pow => VisitPow ord self a b
      | Atan2 => VisitAtan2 ord self a b
      | Min => VisitMin ord self a b
      | Max => VisitMax ord self a b
      end
  | ExpressionIfThenElse _ _ _ => VisitIfThenElse
  | ExpressionUninterpretedFunction _ _ => VisitUninterpretedFunction
  end.

End CodeGenVisitor.

(** ** The scalar generator *)

(** [CodeGen(function_name, parameters, e)]. The stream [oss] is a local: the
    text is returned when the visitor returns, and nothing is when it throws. *)
Definition CodeGen (ord : sequencing) (function_name : string)
  (parameters : list SymVariable) (e : Expression) : outcome string :=
  let oss := "" in
  let oss := oss +:+ "double " +:+ function_name +:+ "(const double* p) {" +:+ nl in
  let id_to_idx_map := build_id_to_idx_map parameters in
  s <- CodeGenVisitor.CodeGen ord id_to_idx_map e ;;
  let oss := oss +:+ "    return " +:+ s +:+ ";" +:+ nl in
  let oss := oss +:+ "}" +:+ nl in
  let oss := oss +:+ "typedef struct {" +:+ nl
                 +:+ "    /* p: input, vector */" +:+ nl
                 +:+ "    struct { int size; } p;" +:+ nl
                 +:+ "} " +:+ function_name +:+ "_meta_t;" +:+ nl in
  let oss := oss +:+ function_name +:+ "_meta_t " +:+ function_name
                 +:+ "_meta() { return {{"
                 +:+ dec_of_N (N.of_nat (length parameters)) +:+ "}}; }" +:+ nl in
  Returns oss.

(** ** The batch generator *)

Module internal.

(** The sink [*os] of the caller: the text written to it so far. *)
Definition ostream : Type := string.

(** How a call that writes to a sink ends: it returns, an exception leaves
    it, or it reads [data[i]] past the end of the array (undefined in C++;
    the model stops at that read). *)
Inductive termination : Type :=
  | Normal
  | Exception (err : runtime_error)
  | OutOfBounds (i : Z).

Section CodeGenData.
Variable ord : sequencing.
Variable id_to_idx_map : gmap N N.
Variable data : list Expression.

(** The loop [for (int i = 0; i < size; ++i)] with [fuel = size - i]
    iterations left. With [shift_order ord = LeftToRight] the text before
    [visitor.CodeGen(data[i])] is in the sink when [data[i]] is read and the
    visitor is called: it is there when the read is past the end and when
    the visitor throws. *)
Fixpoint CodeGenData_loop (fuel : nat) (i : Z) (os : ostream)
  : ostream * termination :=
  match fuel with
  | O => (os, Normal)
  | S fuel' =>
      let before := "    " +:+ "m[" +:+ dec_of_Z i +:+ "] = " in
      match data !! Z.to_nat i with
      | None =>
          match shift_order ord with
          | LeftToRight => (os +:+ before, OutOfBounds i)
          | RightToLeft => (os, OutOfBounds i)
          end
      | Some data_i =>
          match CodeGenVisitor.CodeGen ord id_to_idx_map data_i with
          | Returns s =>
              CodeGenData_loop fuel' (i + 1) (os +:+ before +:+ s +:+ ";" +:+ nl)
          | Throws err =>
              match shift_order ord with
              | LeftToRight => (os +:+ before, Exception err)
              | RightToLeft => (os, Exception err)
              end
          end
      end
  end.
End CodeGenData.

(** [CodeGenData(function_name, parameters, data, size, os)]; [data] is the
    array that the pointer [data] points to. *)
Definition CodeGenData (ord : sequencing) (function_name : string)
  (parameters : list SymVariable) (data : list Expression) (size : Z)
  (os : ostream) : ostream * termination :=
  let os := os +:+ "void " +:+ function_name
               +:+ "(const double* p, double* m) {" +:+ nl in
  let id_to_idx_map := build_id_to_idx_map parameters in
  match CodeGenData_loop ord id_to_idx_map data (Z.to_nat size) 0 os with
  | (os, Normal) => (os +:+ "}" +:+ nl, Normal)
  | stopped => stopped
  end.

(** [CodeGenMeta(function_name, parameter_size, rows, cols, os)]. *)
Definition CodeGenMeta (function_name : string) (parameter_size rows cols : Z)
  (os : ostream) : ostream :=
  let os := os +:+ "typedef struct {" +:+ nl
               +:+ "    /* p: input, vector */" +:+ nl
               +:+ "    struct { int size; } p;" +:+ nl
               +:+ "    /* m: output, matrix */" +:+ nl
               +:+ "    struct { int rows; int cols; } m;" +:+ nl
               +:+ "} " +:+ function_name +:+ "_meta_t;" +:+ nl in
  os +:+ function_name +:+ "_meta_t " +:+ function_name +:+ "_meta() { return {{"
     +:+ dec_of_Z parameter_size +:+ "}, {" +:+ dec_of_Z rows +:+ ", "
     +:+ dec_of_Z cols +:+ "}}; }" +:+ nl.

End internal.

(** ** Predicates on expressions *)

(** [e] has an if-then-else or an uninterpreted function among its nodes. *)
Fixpoint contains_unsupported (e : Expression) : bool :=
  match e with
  | ExpressionVar _ | ExpressionConstant _ => false
  | ExpressionAdd _ items =>
      existsb (fun it => contains_unsupported it.1) items
  | ExpressionMul _ items =>
      existsb (fun it => contains_unsupported it.1 || contains_unsupported it.2) items
  | UnaryExpression _ a => contains_unsupported a
  | BinaryExpression _ a b => contains_unsupported a || contains_unsupported b
  | ExpressionIfThenElse _ _ _ => true
  | ExpressionUninterpretedFunction _ _ => true
  end.

(** Every [Variable] node of [e] has its identity in [m]. *)
Fixpoint variables_bound (m : gmap N N) (e : Expression) : bool :=
  match e with
  | ExpressionVar v => bool_decide (is_Some (m !! get_id v))
  | ExpressionConstant _ => true
  | ExpressionAdd _ items => forallb (fun it => variables_bound m it.1) items
  | ExpressionMul _ items =>
      forallb (fun it => variables_bound m it.1 && variables_bound m it.2) items
  | UnaryExpression _ a => variables_bound m a
  | BinaryExpression _ a b => variables_bound m a && variables_bound m b
  | ExpressionIfThenElse _ a b => variables_bound m a && variables_bound m b
  | ExpressionUninterpretedFunction _ _ => true
  end.

(** ** What the spec says of a sum and of a product

    The text of a sum [(c0 + c1*t1 + ...)] and of a product
    [(c0 * pow(b1, x1) * ...)] in the words of the spec, from the texts of the
    children. *)

(** A term of coefficient exactly [1.0] is its text alone. *)
Definition spec_term (c : double) (t : string) : string :=
  if double_eqb c one then t else "(" +:+ put_double c +:+ " * " +:+ t +:+ ")".

Fixpoint spec_terms (terms : list (double * string)) : string :=
  match terms with
  | [] => ""
  | (c, t) :: rest => " + " +:+ spec_term c t +:+ spec_terms rest
  end.

Definition spec_sum (c0 : double) (terms : list (double * string)) : string :=
  "(" +:+ put_double c0 +:+ spec_terms terms +:+ ")".

(** A factor whose exponent is the literal constant 1 is the text of its base
    alone; [exponent] is [None] for such a factor. *)
Definition spec_factor (base : string) (exponent : option string) : string :=
  match exponent with
  | None => base
  | Some x => "pow(" +:+ base +:+ ", " +:+ x +:+ ")"
  end.

Fixpoint spec_factors (factors : list (string * option string)) : string :=
  match factors with
  | [] => ""
  | (b, x) :: rest => " * " +:+ spec_factor b x +:+ spec_factors rest
  end.

Definition spec_product (c0 : double) (factors : list (string * option string))
  : string :=
  "(" +:+ put_double c0 +:+ spec_factors factors +:+ ")".

(** The statements of a batch function in the words of the spec: one
    [m[i] = text;] for each text, from index [i] on. *)
Fixpoint spec_statements (i : Z) (texts : list string) : string :=
  match texts with
  | [] => ""
  | t :: rest =>
      "    m[" +:+ dec_of_Z i +:+ "] = " +:+ t +:+ ";" +:+ nl
      +:+ spec_statements (i + 1) rest
  end.

(** The meta accessors of section 6 of the spec: [<name>_meta()] returns
    [{{parameterCount}}] in scalar mode and [{{parameterCount}, {rows, cols}}]
    in batch mode. *)
Definition spec_scalar_meta (name : string) (input_size : N) : string :=
  name +:+ "_meta_t " +:+ name +:+ "_meta() { return {{"
       +:+ dec_of_N input_size +:+ "}}; }" +:+ nl.

Definition spec_batch_meta (name : string) (input_size rows cols : Z) : string :=
  name +:+ "_meta_t " +:+ name +:+ "_meta() { return {{"
       +:+ dec_of_Z input_size +:+ "}, {" +:+ dec_of_Z rows +:+ ", "
       +:+ dec_of_Z cols +:+ "}}; }" +:+ nl.

(** ** Reading a fixed-notation text back *)

(** The text before and after the first occurrence of the character [c]. *)
Fixpoint split_at (c : ascii) (s : string) : string * option string :=
  match s with
  | EmptyString => (EmptyString, None)
  | String a s' =>
      if Ascii.eqb a c then (EmptyString, Some s')
      else let '(l, r) := split_at c s' in (String a l, r)
  end.

(** A decimal number [-]digits[.digits] as sign, the number that all its
    digits write, and the count of digits after the point. *)
Definition decimal_of_text (s : string) : option (bool * N * nat) :=
  let '(neg, body) :=
    match s with
    | String a s' => if Ascii.eqb a "-" then (true, s') else (false, s)
    | EmptyString => (false, s)
    end in
  let '(i, f) := split_at "." body in
  let f := default "" f in
  match i, read_digits (i +:+ f) 0 with
  | String _ _, Some n => Some (neg, n, String.length f)
  | _, _ => None
  end.

(** The double nearest to [n / d], ties to even ([0 < d]). *)
Definition round_to_double (neg : bool) (n d : Z) : double :=
  match n with
  | Z0 => B754_zero neg
  | _ =>
      let '(q, e, l) := SFdiv_core_binary prec emax n 0 d 0 in
      double_of_spec (binary_round_aux prec emax neg q e l)
  end.

(** [strtod] on the texts that [printf] writes for a double in fixed
    notation. *)
Definition strtod (s : string) : option double :=
  if String.eqb s "nan" then Some (B754_nan false)
  else if String.eqb s "-nan" then Some (B754_nan true)
  else if String.eqb s "inf" then Some (B754_infinity false)
  else if String.eqb s "-inf" then Some (B754_infinity true)
  else
    match decimal_of_text s with
    | Some (neg, n, k) => Some (round_to_double neg (Z.of_N n) (10 ^ Z.of_nat k))
    | None => None
    end.

(** The rational that a finite double and a decimal text stand for. *)
Definition Q_of_double (x : double) : option Q :=
  match x with
  | B754_zero _ => Some 0%Q
  | B754_finite s m e =>
      let '(n, d) := fraction m e in
      Some ((if s then - n else n) # Z.to_pos d)
  | _ => None
  end.

Definition Q_of_text (s : string) : option Q :=
  match decimal_of_text s with
  | Some (neg, n, k) =>
      Some ((if neg then - Z.of_N n else Z.of_N n) # Z.to_pos (10 ^ Z.of_nat k))
  | None => None
  end.

(** The name of the C function of each unary and binary kind, and the text
    of a binary node, as the visit functions have them. *)
Definition unary_function (k : UnaryKind) : string :=
  match k with
  | Log => "log" | Abs => "fabs" | Exp => "exp" | Sqrt => "sqrt"
  | Sin => "sin" | Cos => "cos" | Tan => "tan"
  | Asin => "asin" | Acos => "acos" | Atan => "atan"
  | Sinh => "sinh" | Cosh => "cosh" | Tanh => "tanh"
  | Ceil => "ceil" | Floor => "floor"
  end.

Definition binary_text (k : BinaryKind) (s1 s2 : string) : string :=
  match k with
  | Div => "(" +:+ s1 +:+ " / " +:+ s2 +:+ ")"
  | Pow => "pow" +:+ "(" +:+ s1 +:+ ", " +:+ s2 +:+ ")"
  | Atan2 => "atan2" +:+ "(" +:+ s1 +:+ ", " +:+ s2 +:+ ")"
  | Min => "fmin" +:+ "(" +:+ s1 +:+ ", " +:+ s2 +:+ ")"
  | Max => "fmax" +:+ "(" +:+ s1 +:+ ", " +:+ s2 +:+ ")"
  end.

(** ** Parentheses of a text *)

(** The depth of nesting after the text [s], read at depth [d]; [None] when
    a closing parenthesis has no opening one before it. *)
Fixpoint paren_depth (s : string) (d : nat) : option nat :=
  match s with
  | EmptyString => Some d
  | String c s' =>
      if Ascii.eqb c "(" then paren_depth s' (S d)
      else if Ascii.eqb c ")" then
        match d with
        | O => None
        | S d' => paren_depth s' d'
        end
      else paren_depth s' d
  end.

(** Every parenthesis of [s] has its partner in [s]. *)
Definition balanced (s : string) : Prop := forall d, paren_depth s d = Some d.

Fixpoint paren_free (s : string) : bool :=
  match s with
  | EmptyString => true
  | String c s' => negb (Ascii.eqb c "(") && negb (Ascii.eqb c ")") && paren_free s'
  end.

(** ** Sample inputs *)

Definition var_x : SymVariable := {| get_id := 1; get_name := "x" |}.
Definition var_y : SymVariable := {| get_id := 2; get_name := "y" |}.
Definition var_z : SymVariable := {| get_id := 3; get_name := "z" |}.

Definition two : double := double_of_Z 2.
Definition three : double := double_of_Z 3.

(** The doubles [1e-7] and [2.5]. *)
Definition tenth_of_a_millionth : double := B754_finite false 7555786372591432 (-76).
Definition two_and_a_half : double := B754_finite false 5629499534213120 (-51).

(** The sequencing of C++17 with [+] evaluated from the left, and the one of
    a compiler that evaluates every right operand first. *)
Definition left_to_right : sequencing :=
  {| plus_order := LeftToRight; shift_order := LeftToRight |}.
Definition right_to_left : sequencing :=
  {| plus_order := RightToLeft; shift_order := RightToLeft |}.

(** The sum [2 + x + 3 * y] in canonical form. *)
Definition sample_sum (x y : SymVariable) : Expression :=
  ExpressionAdd two [(ExpressionVar x, one); (ExpressionVar y, three)].

(** An if-then-else, which the generator rejects. *)
Definition sample_if_then_else : Expression :=
  ExpressionIfThenElse FormulaTrue (ExpressionVar var_x) (ExpressionVar var_y).

(** ** Induction on expressions, through the two maps *)

Section Expression_induction.
Variable P : Expression -> Prop.
Hypothesis HVar : forall v, P (ExpressionVar v).
Hypothesis HConstant : forall c, P (ExpressionConstant c).
Hypothesis HAdd : forall c items,
  Forall (fun it => P it.1) items -> P (ExpressionAdd c items).
Hypothesis HMul : forall c items,
  Forall (fun it => P it.1 /\ P it.2) items -> P (ExpressionMul c items).
Hypothesis HUnary : forall k a, P a -> P (UnaryExpression k a).
Hypothesis HBinary : forall k a b, P a -> P b -> P (BinaryExpression k a b).
Hypothesis HIfThenElse : forall f a b,
  P a -> P b -> P (ExpressionIfThenElse f a b).
Hypothesis HUninterpretedFunction : forall name vars,
  P (ExpressionUninterpretedFunction name vars).

Fixpoint Expression_induction (e : Expression) : P e :=
  match e with
  | ExpressionVar v => HVar v
  | ExpressionConstant c => HConstant c
  | ExpressionAdd c items =>
      HAdd c items
        ((fix go (l : list (Expression * double)) : Forall (fun it => P it.1) l :=
            match l with
            | [] => List.Forall_nil _
            | it :: l' => List.Forall_cons _ it l' (Expression_induction it.1) (go l')
            end) items)
  | ExpressionMul c items =>
      HMul c items
        ((fix go (l : list (Expression * Expression))
            : Forall (fun it => P it.1 /\ P it.2) l :=
            match l with
            | [] => List.Forall_nil _
            | it :: l' =>
                List.Forall_cons _ it l'
                  (conj (Expression_induction it.1) (Expression_induction it.2))
                  (go l')
            end) items)
  | UnaryExpression k a => HUnary k a (Expression_induction a)
  | BinaryExpression k a b =>
      HBinary k a b (Expression_induction a) (Expression_induction b)
  | ExpressionIfThenElse f a b =>
      HIfThenElse f a b (Expression_induction a) (Expression_induction b)
  | ExpressionUninterpretedFunction name vars =>
      HUninterpretedFunction name vars
  end.
End Expression_induction.

(** ** Entries of a product *)

(** The factor of the spec for an entry of the map, from the texts [t] of its
    base and of its exponent. *)
Definition factor_of (it : Expression * Expression) (t : string * string)
  : string * option string :=
  (t.1, if is_one it.2 then None else Some t.2).

(** An entry of the map lowers to the texts [t]; the exponent is lowered
    only when it is not the literal 1. *)
Definition factor_lowers (rec : Expression -> outcome string)
  (it : Expression * Expression) (t : string * string) : Prop :=
  rec it.1 = Returns t.1 /\ (is_one it.2 = false -> rec it.2 = Returns t.2).

(** * Properties *)

(** ** Strings and outcomes *)

Lemma append_cons (c : ascii) (s t : string) :
  String c s +:+ t = String c (s +:+ t).
Proof. reflexivity. Qed.

Lemma append_assoc (s1 s2 s3 : string) : (s1 +:+ s2) +:+ s3 = s1 +:+ (s2 +:+ s3).
Proof.
  induction s1 as [|c s1 IH]; [reflexivity|].
  rewrite !append_cons. now rewrite IH.
Qed.

Lemma append_nil_r (s : string) : s +:+ "" = s.
Proof.
  induction s as [|c s IH]; [reflexivity|].
  rewrite append_cons. now rewrite IH.
Qed.

Lemma append_length (s1 s2 : string) :
  String.length (s1 +:+ s2) = (String.length s1 + String.length s2)%nat.
Proof.
  induction s1 as [|c s1 IH]; [reflexivity|].
  rewrite append_cons. simpl. now rewrite IH.
Qed.

(** Equal texts up to the nesting of the concatenations. *)
Ltac same_text := simpl; rewrite ?append_assoc; reflexivity.

Lemma bind_returns_inv {A B : Type} (c : outcome A) (k : A -> outcome B) (b : B) :
  bind c k = Returns b -> exists a, c = Returns a /\ k a = Returns b.
Proof. destruct c as [a|err]; simpl; [eauto | discriminate]. Qed.

Lemma bind_throws_inv {A B : Type} (c : outcome A) (k : A -> outcome B) err :
  bind c k = Throws err ->
  c = Throws err \/ exists a, c = Returns a /\ k a = Throws err.
Proof. destruct c as [a|err']; simpl; [eauto | intros [= ->]; now left]. Qed.

Lemma both_returns {A B : Type} (o : operand_order) (a : A) (b : B) :
  both o (Returns a) (Returns b) = Returns (a, b).
Proof. now destruct o. Qed.

Lemma both_returns_inv {A B : Type} (o : operand_order)
  (a : outcome A) (b : outcome B) (p : A * B) :
  both o a b = Returns p -> a = Returns p.1 /\ b = Returns p.2.
Proof.
  destruct o, a as [x|?], b as [y|?]; simpl; try discriminate;
    intros [= <-]; now split.
Qed.

(** Whatever the order, two operands throw what one of them throws. *)
Lemma both_throws_inv {A B : Type} (o : operand_order)
  (a : outcome A) (b : outcome B) err :
  both o a b = Throws err -> a = Throws err \/ b = Throws err.
Proof.
  destruct o, a as [x|?], b as [y|?]; simpl; try discriminate;
    intros [= ->]; auto.
Qed.

Lemma both_throws_l {A B : Type} (o : operand_order) (b : outcome B) err :
  exists err', both o (Throws err : outcome A) b = Throws err'.
Proof. destruct o, b as [y|?]; simpl; eauto. Qed.

Lemma both_throws_r {A B : Type} (o : operand_order) (a : outcome A) err :
  exists err', both o a (Throws err : outcome B) = Throws err'.
Proof. destruct o, a as [x|?]; simpl; eauto. Qed.

(** ** Decimal texts *)

Lemma digit_of_digit_char (d : Z) :
  0 <= d < 10 -> digit_of (digit_char d) = Some (Z.to_N d).
Proof.
  intros H.
  assert (Hd : d = 0 \/ d = 1 \/ d = 2 \/ d = 3 \/ d = 4 \/ d = 5 \/ d = 6 \/
               d = 7 \/ d = 8 \/ d = 9) by lia.
  repeat (destruct Hd as [-> | Hd]; [reflexivity|]). now subst.
Qed.

Lemma read_digits_app (s1 s2 : string) (acc : N) :
  read_digits (s1 +:+ s2) acc
  = match read_digits s1 acc with
    | Some a => read_digits s2 a
    | None => None
    end.
Proof.
  revert acc. induction s1 as [|c s1 IH]; intros acc; [reflexivity|].
  rewrite append_cons. simpl. destruct (digit_of c); [apply IH | reflexivity].
Qed.

Lemma read_digits_fixed (width : nat) (n : Z) (acc : N) :
  0 <= n ->
  read_digits (digits_fixed width n) acc
  = Some (acc * 10 ^ N.of_nat width + Z.to_N (n mod 10 ^ Z.of_nat width))%N.
Proof.
  revert n acc. induction width as [|w IH]; intros n acc Hn.
  - simpl. rewrite Z.mod_1_r. f_equal. simpl. lia.
  - simpl digits_fixed. rewrite read_digits_app, IH by (apply Z.div_pos; lia).
    simpl read_digits. rewrite digit_of_digit_char by (apply Z.mod_pos_bound; lia).
    f_equal.
    replace (Z.of_nat (S w)) with (1 + Z.of_nat w) by lia.
    rewrite Z.pow_add_r, Z.pow_1_r by lia.
    rewrite (Z.rem_mul_r n 10 (10 ^ Z.of_nat w)) by lia.
    replace (N.of_nat (S w)) with (1 + N.of_nat w)%N by lia.
    rewrite N.pow_add_r, N.pow_1_r.
    assert (H1 : 0 <= n mod 10 < 10) by (apply Z.mod_pos_bound; lia).
    assert (H2 : 0 <= (n / 10) mod 10 ^ Z.of_nat w)
      by (apply Z.mod_pos_bound; lia).
    lia.
Qed.

Lemma length_digits_fixed (width : nat) (n : Z) :
  String.length (digits_fixed width n) = width.
Proof.
  revert n. induction width as [|w IH]; intros n; [reflexivity|].
  simpl digits_fixed. rewrite append_length, IH. simpl. lia.
Qed.

Lemma of_uint_digit (d : uint) :
  N.of_uint (D0 d) = N.of_uint d /\
  (forall k : positive,
      N.pos (Pos.of_uint_acc d k)
      = (N.pos k * 10 ^ DecimalPos.Unsigned.usize d + N.of_uint d)%N).
Proof.
  split; [reflexivity|]. intros k.
  rewrite DecimalPos.Unsigned.of_uint_acc_rev.
  unfold N.of_uint. rewrite DecimalPos.Unsigned.of_uint_alt. lia.
Qed.

Lemma read_digits_of_uint (d : uint) (acc : N) :
  read_digits (NilEmpty.string_of_uint d) acc
  = Some (acc * 10 ^ DecimalPos.Unsigned.usize d + N.of_uint d)%N.
Proof.
  revert acc. induction d; intros acc;
    [simpl; f_equal; lia | ..];
    simpl NilEmpty.string_of_uint; simpl read_digits; rewrite IHd;
    simpl DecimalPos.Unsigned.usize; rewrite N.pow_succ_r';
    f_equal;
    first [ change (N.of_uint (D0 d)) with (N.of_uint d); lia
          | unfold N.of_uint at 2; simpl Pos.of_uint;
            rewrite (proj2 (of_uint_digit d)); lia ].
Qed.

Lemma read_digits_dec_of_N (n : N) : read_digits (dec_of_N n) 0 = Some n.
Proof.
  unfold dec_of_N. rewrite read_digits_of_uint.
  rewrite DecimalN.Unsigned.of_to. reflexivity.
Qed.

Lemma dec_of_N_nonempty (n : N) : exists c s, dec_of_N n = String c s.
Proof.
  unfold dec_of_N. destruct n as [|p]; [now exists "0"%char, ""|].
  simpl N.to_uint.
  pose proof (DecimalPos.Unsigned.to_uint_nonnil p) as H.
  destruct (Pos.to_uint p); [contradiction | ..]; simpl; eauto.
Qed.

Lemma N_of_dec_of_N (n : N) : N_of_dec (dec_of_N n) = Some n.
Proof.
  unfold N_of_dec. destruct (dec_of_N_nonempty n) as (c & s & E).
  rewrite <- (read_digits_dec_of_N n), E. reflexivity.
Qed.

(** A text that reads as digits does not start with the sign or the point. *)
Lemma digit_of_not_sign (c : ascii) (d : N) :
  digit_of c = Some d -> Ascii.eqb c "-" = false /\ Ascii.eqb c "." = false.
Proof.
  intros H. split.
  - destruct (Ascii.eqb_spec c "-") as [->|]; [discriminate | reflexivity].
  - destruct (Ascii.eqb_spec c ".") as [->|]; [discriminate | reflexivity].
Qed.

Lemma dec_of_Z_nonneg (z : Z) : 0 <= z -> dec_of_Z z = dec_of_N (Z.to_N z).
Proof. intros H. destruct z as [|p|p]; [reflexivity | reflexivity | lia]. Qed.

Lemma dec_of_Z_neg (p : positive) :
  dec_of_Z (Z.neg p) = String "-" (dec_of_N (N.pos p)).
Proof. reflexivity. Qed.

Lemma Z_of_dec_of_Z (z : Z) : Z_of_dec (dec_of_Z z) = Some z.
Proof.
  destruct z as [|p|p].
  - reflexivity.
  - rewrite dec_of_Z_nonneg by lia.
    pose proof (N_of_dec_of_N (Z.to_N (Z.pos p))) as H.
    destruct (dec_of_N_nonempty (Z.to_N (Z.pos p))) as (c & s & E).
    rewrite E in *. unfold Z_of_dec.
    assert (Hc : Ascii.eqb c "-" = false).
    { unfold N_of_dec in H. simpl in H.
      destruct (digit_of c) as [d|] eqn:Hd; [|discriminate].
      now apply digit_of_not_sign in Hd. }
    rewrite Hc, H. simpl. f_equal.
  - rewrite dec_of_Z_neg. unfold Z_of_dec.
    change (Ascii.eqb "-" "-") with true. cbv iota.
    now rewrite N_of_dec_of_N.
Qed.

Lemma round_half_even_close (a d : Z) :
  0 < d -> Z.abs (2 * (round_half_even a d * d - a)) <= d.
Proof.
  intros Hd. unfold round_half_even.
  pose proof (Z.div_mod a d ltac:(lia)) as Ha.
  pose proof (Z.mod_pos_bound a d Hd) as Hr.
  destruct (Z.compare_spec (2 * (a mod d)) d) as [H|H|H];
    [destruct (Z.even (a / d))|..]; nia.
Qed.

Lemma round_half_even_exact (k d : Z) :
  0 < d -> round_half_even (k * d) d = k.
Proof.
  intros Hd. unfold round_half_even.
  rewrite Z.div_mul, Z.mod_mul by lia.
  destruct (Z.compare_spec (2 * 0) d); lia.
Qed.

Lemma round_half_even_nonneg (a d : Z) :
  0 <= a -> 0 < d -> 0 <= round_half_even a d.
Proof.
  intros Ha Hd. unfold round_half_even.
  pose proof (Z.div_pos a d Ha Hd).
  destruct (2 * (a mod d) ?= d); [destruct (Z.even (a / d))|..]; lia.
Qed.

Lemma fraction_positive (m : positive) (e : Z) :
  0 < (fraction m e).1 /\ 0 < (fraction m e).2.
Proof.
  unfold fraction. destruct (Z.leb_spec 0 e); simpl fst; simpl snd; split;
    try lia; try (apply Z.mul_pos_pos; [lia|]); apply Z.pow_pos_nonneg; lia.
Qed.

Lemma split_at_point (i f : string) (acc a : N) :
  read_digits i acc = Some a ->
  split_at "." (i +:+ "." +:+ f) = (i, Some f).
Proof.
  revert acc. induction i as [|c i IH]; intros acc H; [reflexivity|].
  rewrite append_cons. simpl in *.
  destruct (digit_of c) as [d|] eqn:Hd; [|discriminate].
  destruct (digit_of_not_sign c d Hd) as [_ ->].
  now rewrite (IH _ H).
Qed.

(** What a fixed-notation text of [a] and [w] decimals [b] reads as. *)
Lemma decimal_of_text_fixed (s : bool) (a : N) (w : nat) (b : Z) :
  0 <= b ->
  decimal_of_text (sign_text s +:+ dec_of_N a +:+ "." +:+ digits_fixed w b)
  = Some (s, (a * 10 ^ N.of_nat w + Z.to_N (b mod 10 ^ Z.of_nat w))%N, w).
Proof.
  intros Hb. unfold decimal_of_text.
  destruct (dec_of_N_nonempty a) as (c & i & E).
  pose proof (read_digits_dec_of_N a) as Ha.
  assert (Hc : Ascii.eqb c "-" = false).
  { rewrite E in Ha. simpl in Ha.
    destruct (digit_of c) as [d|] eqn:Hd; [|discriminate].
    now apply digit_of_not_sign in Hd. }
  assert (Hbody :
    (let '(i0, f0) := split_at "." (dec_of_N a +:+ "." +:+ digits_fixed w b) in
     let f1 := default "" f0 in
     match i0, read_digits (i0 +:+ f1) 0 with
     | String _ _, Some n => Some (s, n, String.length f1)
     | _, _ => None
     end)
    = Some (s, (a * 10 ^ N.of_nat w + Z.to_N (b mod 10 ^ Z.of_nat w))%N, w)).
  { rewrite (split_at_point _ _ _ _ Ha). cbv beta iota zeta delta [default id from_option].
    rewrite E. cbv iota. rewrite <- E.
    now rewrite read_digits_app, Ha, read_digits_fixed, length_digits_fixed
      by exact Hb. }
  destruct s; simpl sign_text.
  - rewrite append_cons. change (Ascii.eqb "-" "-") with true. cbv iota.
    exact Hbody.
  - change ("" +:+ dec_of_N a +:+ "." +:+ digits_fixed w b)
      with (dec_of_N a +:+ "." +:+ digits_fixed w b).
    rewrite E in *. rewrite append_cons in *. rewrite Hc. exact Hbody.
Qed.

Lemma with_point_fixed (i : string) (w : nat) (b : Z) :
  with_point i (digits_fixed (S w) b) = i +:+ "." +:+ digits_fixed (S w) b.
Proof.
  unfold with_point. pose proof (length_digits_fixed (S w) b) as H.
  destruct (digits_fixed (S w) b); [discriminate | reflexivity].
Qed.

(** The text of a finite double reads as the nearest multiple of [10^-6]. *)
Lemma decimal_of_text_to_string (s : bool) (m : positive) (e : Z) :
  decimal_of_text (to_string_double (B754_finite s m e))
  = Some (s, Z.to_N (scaled m e 6), 6%nat).
Proof.
  unfold to_string_double, printf_f, fixed_parts. cbv beta iota zeta delta [uncurry].
  simpl fst. simpl snd.
  set (N := scaled m e (Z.of_nat 6)).
  assert (HN : 0 <= N).
  { unfold N, scaled. destruct (fraction_positive m e) as [Hn Hd].
    destruct (fraction m e) as [n d]. simpl in Hn, Hd. simpl.
    apply round_half_even_nonneg; lia. }
  assert (Hu : 0 < 10 ^ Z.of_nat 6) by (apply Z.pow_pos_nonneg; lia).
  rewrite with_point_fixed.
  rewrite dec_of_Z_nonneg by (apply Z.div_pos; lia).
  rewrite decimal_of_text_fixed by (apply Z.mod_pos_bound; lia).
  do 2 f_equal. f_equal.
  rewrite Z.mod_mod by lia.
  pose proof (Z.div_mod N (10 ^ Z.of_nat 6) ltac:(lia)) as Hdm.
  pose proof (Z.mod_pos_bound N (10 ^ Z.of_nat 6) Hu) as Hm.
  pose proof (Z.div_pos N (10 ^ Z.of_nat 6) HN Hu) as Hq.
  change (scaled m e 6) with N.
  change (10 ^ N.of_nat 6)%N with (Z.to_N (10 ^ Z.of_nat 6)).
  lia.
Qed.

Lemma Qabs_diff_bound (a b u d : Z) :
  0 < u -> 0 < d ->
  Z.abs (2 * (a * d - b * u)) <= d ->
  (Qabs ((a # Z.to_pos u) - (b # Z.to_pos d)) <= 1 # (2 * Z.to_pos u))%Q.
Proof.
  intros Hu Hd H.
  unfold Qle, Qminus, Qplus, Qopp, Qabs. simpl Qnum. simpl Qden.
  rewrite !Pos2Z.inj_mul, !Z2Pos.id by lia. nia.
Qed.

Lemma to_string_close (s : bool) (m : positive) (e : Z) (v : Q) :
  Q_of_double (B754_finite s m e) = Some v ->
  exists q,
    Q_of_text (to_string_double (B754_finite s m e)) = Some q /\
    (exists n : Z, (q == n # 1000000)%Q) /\
    (Qabs (q - v) <= 1 # 2000000)%Q /\
    ((exists k : Z, (v * inject_Z 1000000 == inject_Z k)%Q) -> (q == v)%Q).
Proof.
  unfold Q_of_double, Q_of_text. rewrite decimal_of_text_to_string.
  unfold scaled. destruct (fraction_positive m e) as [Hn Hd].
  destruct (fraction m e) as [n d]. simpl in Hn, Hd.
  change (0 <=? 6) with true. cbv iota.
  set (N := round_half_even (n * 10 ^ 6) d).
  pose proof (round_half_even_close (n * 10 ^ 6) d Hd) as Hclose.
  pose proof (round_half_even_nonneg (n * 10 ^ 6) d ltac:(lia) Hd) as HN.
  fold N in Hclose, HN.
  intros [= <-]. eexists. split; [reflexivity|].
  rewrite Z2N.id by exact HN.
  change (Z.of_nat 6) with 6.
  split; [|split].
  - exists (if s then - N else N). change (Z.to_pos (10 ^ 6)) with 1000000%positive.
    reflexivity.
  - change (1 # 2000000)%Q with (1 # (2 * Z.to_pos (10 ^ 6)))%Q.
    apply Qabs_diff_bound; [lia | exact Hd |].
    destruct s; lia.
  - intros [k Hk]. unfold Qeq, Qmult, inject_Z in Hk. simpl in Hk.
    rewrite Pos.mul_1_r, Z2Pos.id in Hk by exact Hd.
    assert (HNk : N = Z.abs k).
    { unfold N. destruct s.
      - replace (n * 10 ^ 6) with (- k * d) by lia.
        rewrite round_half_even_exact by exact Hd. nia.
      - replace (n * 10 ^ 6) with (k * d) by lia.
        rewrite round_half_even_exact by exact Hd. nia. }
    unfold Qeq. simpl. rewrite Z2Pos.id by exact Hd.
    destruct s; nia.
Qed.

(** ** The identity-to-index map *)

Lemma emplace_lookup (k v k' : N) (m : gmap N N) :
  emplace k v m !! k' =
    match m !! k' with
    | Some x => Some x
    | None => if decide (k = k') then Some v else None
    end.
Proof.
  unfold emplace. destruct (decide (k = k')) as [->|Hne].
  - destruct (m !! k') as [x|] eqn:Hk; [exact Hk|]. apply lookup_insert_eq.
  - destruct (m !! k) as [y|] eqn:Hk.
    + now destruct (m !! k').
    + rewrite lookup_insert_ne by exact Hne. now destruct (m !! k').
Qed.

(** A key that is in the map keeps its index through the loop. *)
Lemma emplace_parameters_keeps (parameters : list SymVariable) (i : N)
  (m : gmap N N) (id x : N) :
  m !! id = Some x -> emplace_parameters parameters i m !! id = Some x.
Proof.
  revert i m. induction parameters as [|p rest IH]; intros i m Hm; simpl.
  - exact Hm.
  - apply IH. rewrite emplace_lookup. now rewrite Hm.
Qed.

(** A key that no parameter has stays out of the map. *)
Lemma emplace_parameters_absent (parameters : list SymVariable) (i : N)
  (m : gmap N N) (id : N) :
  m !! id = None ->
  (forall p, p ∈ parameters -> get_id p <> id) ->
  emplace_parameters parameters i m !! id = None.
Proof.
  revert i m. induction parameters as [|p rest IH]; intros i m Hm Hall; simpl.
  - exact Hm.
  - apply IH.
    + rewrite emplace_lookup, Hm. destruct (decide (get_id p = id)) as [Heq|]; [|done].
      exfalso. apply (Hall p); [apply list_elem_of_here | exact Heq].
    + intros q Hq. apply Hall. now apply list_elem_of_further.
Qed.

(** A key that is not in the map yet gets the index of the first parameter
    that has it. *)
Lemma emplace_parameters_first (parameters : list SymVariable) (i : N)
  (m : gmap N N) (k : nat) (v : SymVariable) :
  m !! get_id v = None ->
  parameters !! k = Some v ->
  (forall j v', (j < k)%nat -> parameters !! j = Some v' -> get_id v' <> get_id v) ->
  emplace_parameters parameters i m !! get_id v = Some (i + N.of_nat k)%N.
Proof.
  revert i m k. induction parameters as [|p rest IH]; intros i m k Hm Hk Hfirst.
  - discriminate.
  - simpl. destruct k as [|k].
    + injection Hk as ->. apply emplace_parameters_keeps.
      rewrite emplace_lookup, Hm. rewrite decide_True by reflexivity.
      f_equal. lia.
    + rewrite (IH (N.succ i) _ k).
      * f_equal. lia.
      * rewrite emplace_lookup, Hm. apply decide_False.
        apply (Hfirst 0%nat p); [lia | reflexivity].
      * exact Hk.
      * intros j v' Hj Hv'. apply (Hfirst (S j) v'); [lia | exact Hv'].
Qed.

(** ** Variables (C1, C10) *)

(** C1. Lowering a Variable node whose identity is absent from the bindings
    fails with the UnboundVariable error, and lowering one whose identity is
    bound at index [i] emits exactly the text [p[i]]. For the scalar generator,
    whose bindings come from the parameter list: a variable that is not
    among the parameters makes the generation fail with UnboundVariable. *)
Theorem variable_binding (ord : sequencing) (v : SymVariable) :
  (forall m : gmap N N,
      m !! get_id v = None ->
      CodeGenVisitor.CodeGen ord m (ExpressionVar v) = Throws UnboundVariable) /\
  (forall (m : gmap N N) (i : N),
      m !! get_id v = Some i ->
      CodeGenVisitor.CodeGen ord m (ExpressionVar v)
      = Returns ("p[" +:+ dec_of_N i +:+ "]")) /\
  (forall (function_name : string) (parameters : list SymVariable),
      (forall p, p ∈ parameters -> get_id p <> get_id v) ->
      CodeGen ord function_name parameters (ExpressionVar v) = Throws UnboundVariable).
Proof.
  split; [|split].
  - intros m Hm. simpl. unfold CodeGenVisitor.VisitVariable. now rewrite Hm.
  - intros m i Hm. simpl. unfold CodeGenVisitor.VisitVariable. now rewrite Hm.
  - intros function_name parameters Habsent. unfold CodeGen. simpl.
    unfold CodeGenVisitor.VisitVariable, build_id_to_idx_map.
    rewrite emplace_parameters_absent; [reflexivity | apply lookup_empty | exact Habsent].
Qed.

(** C10. When the parameter list has the same identity more than once, the
    map keeps the index of the first occurrence, and every reference to the
    variable is rendered as [p[k]] for the position [k] of that occurrence. *)
Theorem first_occurrence_wins (parameters : list SymVariable) (k : nat)
  (v : SymVariable) :
  parameters !! k = Some v ->
  (forall j v', (j < k)%nat -> parameters !! j = Some v' -> get_id v' <> get_id v) ->
  build_id_to_idx_map parameters !! get_id v = Some (N.of_nat k) /\
  (forall (ord : sequencing) (v' : SymVariable),
      get_id v' = get_id v ->
      CodeGenVisitor.CodeGen ord (build_id_to_idx_map parameters) (ExpressionVar v')
      = Returns ("p[" +:+ dec_of_N (N.of_nat k) +:+ "]")).
Proof.
  intros Hk Hfirst.
  assert (Hlookup : build_id_to_idx_map parameters !! get_id v = Some (N.of_nat k)).
  { unfold build_id_to_idx_map.
    rewrite (emplace_parameters_first parameters 0 ∅ k v);
      [f_equal; lia | apply lookup_empty | exact Hk | exact Hfirst]. }
  split; [exact Hlookup|].
  intros ord v' Hid. simpl. unfold CodeGenVisitor.VisitVariable.
  now rewrite Hid, Hlookup.
Qed.

Lemma variable_binding_witness :
  CodeGenVisitor.CodeGen left_to_right ∅ (ExpressionVar var_x) = Throws UnboundVariable /\
  CodeGenVisitor.CodeGen left_to_right {[1%N := 0%N]} (ExpressionVar var_x)
  = Returns "p[0]" /\
  CodeGen left_to_right "f" [var_y] (ExpressionVar var_x) = Throws UnboundVariable.
Proof.
  destruct (variable_binding left_to_right var_x) as (Habsent & Hbound & Hscalar).
  split; [|split].
  - apply Habsent. reflexivity.
  - apply (Hbound {[1%N := 0%N]} 0%N). reflexivity.
  - apply Hscalar. intros p Hp. apply list_elem_of_singleton in Hp. subst p.
    simpl. discriminate.
Defined.

Lemma first_occurrence_wins_witness :
  build_id_to_idx_map [var_y; var_x; var_y; var_x] !! get_id var_x = Some 1%N /\
  CodeGenVisitor.CodeGen left_to_right (build_id_to_idx_map [var_y; var_x; var_y; var_x])
    (ExpressionVar var_x)
  = Returns "p[1]".
Proof.
  destruct (first_occurrence_wins [var_y; var_x; var_y; var_x] 1 var_x)
    as [Hlookup Htext].
  - reflexivity.
  - intros j v' Hj Hv'. destruct j as [|j]; [|lia].
    injection Hv' as <-. simpl. discriminate.
  - split; [exact Hlookup|]. apply (Htext left_to_right var_x). reflexivity.
Defined.

(** ** Operators (C3) *)

Lemma lower_variable (ord : sequencing) (m : gmap N N) (v : SymVariable) (i : N) :
  m !! get_id v = Some i ->
  CodeGenVisitor.CodeGen ord m (ExpressionVar v) = Returns ("p[" +:+ dec_of_N i +:+ "]").
Proof. intros Hm. simpl. unfold CodeGenVisitor.VisitVariable. now rewrite Hm. Qed.

(** C3, as the code has it. With [x] bound at index [i] and [y] at index [j],
    lowering [Sin(x)] emits [sin(p[i])], lowering [x / y] emits
    [(p[i] / p[j])], and lowering [Pow(x, 2)] emits [pow(p[i], 2.000000)]: the
    constant goes through [std::to_string], which writes six decimals. *)
Theorem operator_fidelity (ord : sequencing) (m : gmap N N) (x y : SymVariable)
  (i j : N) :
  m !! get_id x = Some i ->
  m !! get_id y = Some j ->
  CodeGenVisitor.CodeGen ord m (UnaryExpression Sin (ExpressionVar x))
  = Returns ("sin(p[" +:+ dec_of_N i +:+ "])") /\
  CodeGenVisitor.CodeGen ord m
    (BinaryExpression Pow (ExpressionVar x) (ExpressionConstant two))
  = Returns ("pow(p[" +:+ dec_of_N i +:+ "], 2.000000)") /\
  CodeGenVisitor.CodeGen ord m
    (BinaryExpression Div (ExpressionVar x) (ExpressionVar y))
  = Returns ("(p[" +:+ dec_of_N i +:+ "] / p[" +:+ dec_of_N j +:+ "])").
Proof.
  intros Hx Hy.
  pose proof (lower_variable ord m x i Hx) as Lx.
  pose proof (lower_variable ord m y j Hy) as Ly.
  split; [|split].
  - change (CodeGenVisitor.CodeGen ord m (UnaryExpression Sin (ExpressionVar x)))
      with (CodeGenVisitor.VisitSin (CodeGenVisitor.CodeGen ord m) (ExpressionVar x)).
    unfold CodeGenVisitor.VisitSin, CodeGenVisitor.VisitUnary.
    rewrite Lx. same_text.
  - change (CodeGenVisitor.CodeGen ord m
              (BinaryExpression Pow (ExpressionVar x) (ExpressionConstant two)))
      with (CodeGenVisitor.VisitPow ord (CodeGenVisitor.CodeGen ord m)
              (ExpressionVar x) (ExpressionConstant two)).
    unfold CodeGenVisitor.VisitPow, CodeGenVisitor.VisitBinary.
    rewrite Lx.
    change (CodeGenVisitor.CodeGen ord m (ExpressionConstant two))
      with (Returns (A := string) "2.000000").
    rewrite both_returns. same_text.
  - change (CodeGenVisitor.CodeGen ord m
              (BinaryExpression Div (ExpressionVar x) (ExpressionVar y)))
      with (CodeGenVisitor.VisitDivision ord (CodeGenVisitor.CodeGen ord m)
              (ExpressionVar x) (ExpressionVar y)).
    unfold CodeGenVisitor.VisitDivision.
    rewrite Lx, Ly, both_returns. same_text.
Qed.

Lemma operator_fidelity_witness :
  CodeGenVisitor.CodeGen left_to_right {[1%N := 0%N; 2%N := 1%N]}
    (UnaryExpression Sin (ExpressionVar var_x))
  = Returns "sin(p[0])" /\
  CodeGenVisitor.CodeGen left_to_right {[1%N := 0%N; 2%N := 1%N]}
    (BinaryExpression Pow (ExpressionVar var_x) (ExpressionConstant two))
  = Returns "pow(p[0], 2.000000)" /\
  CodeGenVisitor.CodeGen left_to_right {[1%N := 0%N; 2%N := 1%N]}
    (BinaryExpression Div (ExpressionVar var_x) (ExpressionVar var_y))
  = Returns "(p[0] / p[1])".
Proof.
  apply (operator_fidelity left_to_right {[1%N := 0%N; 2%N := 1%N]} var_x var_y 0 1);
    reflexivity.
Defined.

(** The claim of C3 on [Pow(x, 2)] fails: with [x] bound at index 0 the text
    is not [pow(p[0], 2)], under either order of evaluation. *)
Lemma pow_constant_text_counterexample :
  CodeGenVisitor.CodeGen left_to_right {[1%N := 0%N]}
    (BinaryExpression Pow (ExpressionVar var_x) (ExpressionConstant two))
  <> Returns ("pow(p[" +:+ dec_of_N 0 +:+ "], 2)") /\
  CodeGenVisitor.CodeGen right_to_left {[1%N := 0%N]}
    (BinaryExpression Pow (ExpressionVar var_x) (ExpressionConstant two))
  <> Returns ("pow(p[" +:+ dec_of_N 0 +:+ "], 2)").
Proof. split; vm_compute; discriminate. Qed.

(** ** Sums (C4) *)

(** The loop of [VisitAddition] appends the terms of the spec to the stream. *)
Lemma VisitAddition_loop_text (rec : Expression -> outcome string)
  (items : list (Expression * double)) (texts : list string) (oss : string) :
  Forall2 (fun it t => rec it.1 = Returns t) items texts ->
  CodeGenVisitor.VisitAddition_loop rec items oss
  = Returns (oss +:+ spec_terms (zip items.*2 texts)).
Proof.
  intros H. revert oss.
  induction H as [|[e_i c_i] t items texts Ht _ IH]; intros oss.
  - simpl. now rewrite append_nil_r.
  - simpl in Ht. simpl. rewrite Ht. unfold spec_term.
    destruct (double_eqb c_i one); simpl; rewrite IH; f_equal;
      now rewrite ?append_assoc.
Qed.

(** A loop that returns has lowered every term. *)
Lemma VisitAddition_loop_returns_inv (rec : Expression -> outcome string)
  (items : list (Expression * double)) (oss text : string) :
  CodeGenVisitor.VisitAddition_loop rec items oss = Returns text ->
  exists texts, Forall2 (fun it t => rec it.1 = Returns t) items texts.
Proof.
  revert oss text. induction items as [|[e_i c_i] rest IH]; intros oss text H.
  - exists []. constructor.
  - simpl in H. destruct (double_eqb c_i one);
      apply bind_returns_inv in H as (t & Ht & H);
      apply IH in H as (texts & Htexts);
      exists (t :: texts); now constructor.
Qed.

(** C4. Lowering [Addition(2, {(x, 1.0), (y, 3.0)})] with [x] bound at [i]
    and [y] at [j] emits exactly [(2 + p[i] + (3 * p[j]))]; and in every sum
    whose terms lower to [texts], a term of coefficient exactly 1.0 is emitted
    without a multiplier and every other term as [(coeff * term)]. Every sum
    that is lowered has a text of this form. *)
Theorem addition_folding (ord : sequencing) (m : gmap N N) :
  (forall (x y : SymVariable) (i j : N),
      m !! get_id x = Some i ->
      m !! get_id y = Some j ->
      CodeGenVisitor.CodeGen ord m (sample_sum x y)
      = Returns ("(2 + p[" +:+ dec_of_N i +:+ "] + (3 * p[" +:+ dec_of_N j +:+ "]))")) /\
  (forall (c : double) (items : list (Expression * double)) (texts : list string),
      Forall2 (fun it t => CodeGenVisitor.CodeGen ord m it.1 = Returns t) items texts ->
      CodeGenVisitor.CodeGen ord m (ExpressionAdd c items)
      = Returns (spec_sum c (zip items.*2 texts))) /\
  (forall (c : double) (items : list (Expression * double)) (text : string),
      CodeGenVisitor.CodeGen ord m (ExpressionAdd c items) = Returns text ->
      exists texts,
        Forall2 (fun it t => CodeGenVisitor.CodeGen ord m it.1 = Returns t) items texts /\
        text = spec_sum c (zip items.*2 texts)).
Proof.
  assert (Hsum : forall c items texts,
    Forall2 (fun it t => CodeGenVisitor.CodeGen ord m it.1 = Returns t) items texts ->
    CodeGenVisitor.CodeGen ord m (ExpressionAdd c items)
    = Returns (spec_sum c (zip items.*2 texts))).
  { intros c items texts H.
    change (CodeGenVisitor.CodeGen ord m (ExpressionAdd c items))
      with (CodeGenVisitor.VisitAddition (CodeGenVisitor.CodeGen ord m) c items).
    unfold CodeGenVisitor.VisitAddition.
    rewrite (VisitAddition_loop_text _ items texts _ H).
    unfold spec_sum. same_text. }
  split; [|split; [exact Hsum|]].
  - intros x y i j Hx Hy. unfold sample_sum.
    rewrite (Hsum _ _ ["p[" +:+ dec_of_N i +:+ "]"; "p[" +:+ dec_of_N j +:+ "]"]).
    + unfold spec_sum. simpl zip. unfold spec_terms, spec_term.
      change (double_eqb one one) with true.
      change (double_eqb three one) with false.
      change (put_double two) with "2".
      change (put_double three) with "3".
      same_text.
    + constructor; [now apply lower_variable|].
      constructor; [now apply lower_variable|]. constructor.
  - intros c items text H.
    assert (Hloop : exists oss,
              CodeGenVisitor.VisitAddition_loop (CodeGenVisitor.CodeGen ord m) items
                ("(" +:+ put_double c) = Returns oss).
    { change (CodeGenVisitor.CodeGen ord m (ExpressionAdd c items))
        with (CodeGenVisitor.VisitAddition (CodeGenVisitor.CodeGen ord m) c items) in H.
      unfold CodeGenVisitor.VisitAddition in H.
      apply bind_returns_inv in H as (oss & Hoss & _). eauto. }
    destruct Hloop as [oss Hoss].
    apply VisitAddition_loop_returns_inv in Hoss as [texts Htexts].
    exists texts. split; [exact Htexts|].
    rewrite (Hsum c items texts Htexts) in H. now injection H.
Qed.

Lemma addition_folding_witness :
  CodeGenVisitor.CodeGen left_to_right {[1%N := 0%N; 2%N := 1%N]}
    (sample_sum var_x var_y)
  = Returns "(2 + p[0] + (3 * p[1]))" /\
  CodeGenVisitor.CodeGen left_to_right {[1%N := 0%N; 2%N := 1%N]}
    (ExpressionAdd three [(ExpressionConstant two, two); (ExpressionVar var_y, one)])
  = Returns "(3 + (2 * 2.000000) + p[1])".
Proof.
  destruct (addition_folding left_to_right {[1%N := 0%N; 2%N := 1%N]})
    as (Hsample & Hsum & _).
  split.
  - apply (Hsample var_x var_y 0%N 1%N); reflexivity.
  - apply (Hsum three [(ExpressionConstant two, two); (ExpressionVar var_y, one)]
             ["2.000000"; "p[1]"]).
    constructor; [reflexivity|]. constructor; [reflexivity|]. constructor.
Defined.

(** A double compares equal to a positive finite double exactly when it is
    that double. *)
Lemma SFeqb_positive_finite (c : double) (m0 : positive) (e0 : Z) :
  double_eqb c (B754_finite false m0 e0) = true -> c = B754_finite false m0 e0.
Proof.
  unfold double_eqb, SFeqb, SFcompare.
  destruct c as [s|s|s|s mc ec]; simpl spec_of_double; try discriminate.
  - destruct s; discriminate.
  - destruct s; [discriminate|].
    destruct (Z.compare_spec ec e0) as [->| |]; try discriminate.
    change (Pos.compare_cont Eq mc m0) with (Pos.compare mc m0).
    destruct (Pos.compare mc m0) eqn:E; try discriminate.
    apply Pos.compare_eq in E. now rewrite E.
Qed.

Lemma double_eqb_one (c : double) : double_eqb c one = true <-> c = one.
Proof.
  split; [apply SFeqb_positive_finite|].
  intros ->. reflexivity.
Qed.

(** ** Products (C5) *)

Lemma VisitMultiplication_loop_text (ord : sequencing)
  (rec : Expression -> outcome string)
  (items : list (Expression * Expression)) (texts : list (string * string))
  (oss : string) :
  Forall2 (factor_lowers rec) items texts ->
  CodeGenVisitor.VisitMultiplication_loop ord rec items oss
  = Returns (oss +:+ spec_factors (zip_with factor_of items texts)).
Proof.
  intros H. revert oss.
  induction H as [|[e_1 e_2] [t1 t2] items texts [Hb Hx] _ IH]; intros oss.
  - simpl. now rewrite append_nil_r.
  - simpl in Hb, Hx. simpl. unfold factor_of at 1. simpl.
    destruct (is_one e_2).
    + rewrite Hb. simpl. rewrite IH. f_equal. now rewrite ?append_assoc.
    + rewrite Hb, (Hx eq_refl), both_returns. simpl. rewrite IH. f_equal.
      now rewrite ?append_assoc.
Qed.

(** [is_one] holds of the literal constant 1 and of nothing else. *)
Lemma is_one_literal (e : Expression) :
  is_one e = true <-> e = ExpressionConstant one.
Proof.
  destruct e; simpl; try (split; [discriminate | intros [=]]).
  rewrite double_eqb_one. split; [now intros -> | now intros [= ->]].
Qed.

(** A loop that returns has lowered every base, and every exponent that is
    not the literal 1. *)
Lemma VisitMultiplication_loop_returns_inv (ord : sequencing)
  (rec : Expression -> outcome string)
  (items : list (Expression * Expression)) (oss text : string) :
  CodeGenVisitor.VisitMultiplication_loop ord rec items oss = Returns text ->
  exists texts, Forall2 (factor_lowers rec) items texts.
Proof.
  revert oss text. induction items as [|[e_1 e_2] rest IH]; intros oss text H.
  - exists []. constructor.
  - simpl in H. destruct (is_one e_2) eqn:Hone;
      apply bind_returns_inv in H as (s & Hs & H);
      apply IH in H as (texts & Htexts).
    + exists ((s, "") :: texts). constructor; [|exact Htexts].
      split; [exact Hs | simpl; congruence].
    + apply both_returns_inv in Hs as [Hs1 Hs2].
      exists (s :: texts). constructor; [|exact Htexts].
      split; [exact Hs1 | intros _; exact Hs2].
Qed.

(** C5. Lowering a product with constant factor [c0] emits the parenthesized
    product that starts with [c0]; a factor whose exponent is the literal
    constant 1 is emitted as the lowered base alone, every other factor as
    the call [pow(base, exponent)] over the lowered base and exponent. Every
    product that is lowered has a text of this form. *)
Theorem multiplication_factors (ord : sequencing) (m : gmap N N) (c0 : double) :
  (forall (items : list (Expression * Expression)) (texts : list (string * string)),
      Forall2 (factor_lowers (CodeGenVisitor.CodeGen ord m)) items texts ->
      CodeGenVisitor.CodeGen ord m (ExpressionMul c0 items)
      = Returns (spec_product c0 (zip_with factor_of items texts))) /\
  (forall (items : list (Expression * Expression)) (text : string),
      CodeGenVisitor.CodeGen ord m (ExpressionMul c0 items) = Returns text ->
      exists texts,
        Forall2 (factor_lowers (CodeGenVisitor.CodeGen ord m)) items texts /\
        text = spec_product c0 (zip_with factor_of items texts)) /\
  (forall (it : Expression * Expression) (t : string * string),
      (it.2 = ExpressionConstant one -> (factor_of it t).2 = None) /\
      (it.2 <> ExpressionConstant one -> (factor_of it t).2 = Some t.2)).
Proof.
  assert (Hproduct : forall items texts,
    Forall2 (factor_lowers (CodeGenVisitor.CodeGen ord m)) items texts ->
    CodeGenVisitor.CodeGen ord m (ExpressionMul c0 items)
    = Returns (spec_product c0 (zip_with factor_of items texts))).
  { intros items texts H.
    change (CodeGenVisitor.CodeGen ord m (ExpressionMul c0 items))
      with (CodeGenVisitor.VisitMultiplication ord (CodeGenVisitor.CodeGen ord m)
              c0 items).
    unfold CodeGenVisitor.VisitMultiplication.
    rewrite (VisitMultiplication_loop_text _ _ items texts _ H).
    unfold spec_product. same_text. }
  split; [exact Hproduct | split].
  - intros items text H.
    assert (Hloop : exists oss,
              CodeGenVisitor.VisitMultiplication_loop ord (CodeGenVisitor.CodeGen ord m)
                items ("(" +:+ put_double c0) = Returns oss).
    { change (CodeGenVisitor.CodeGen ord m (ExpressionMul c0 items))
        with (CodeGenVisitor.VisitMultiplication ord (CodeGenVisitor.CodeGen ord m)
                c0 items) in H.
      unfold CodeGenVisitor.VisitMultiplication in H.
      apply bind_returns_inv in H as (oss & Hoss & _). eauto. }
    destruct Hloop as [oss Hoss].
    apply VisitMultiplication_loop_returns_inv in Hoss as [texts Htexts].
    exists texts. split; [exact Htexts|].
    rewrite (Hproduct items texts Htexts) in H. now injection H.
  - intros it t. unfold factor_of. simpl. split.
    + intros Hone. apply is_one_literal in Hone. now rewrite Hone.
    + intros Hne. destruct (is_one it.2) eqn:E; [|reflexivity].
      apply is_one_literal in E. contradiction.
Qed.

Lemma multiplication_factors_witness :
  CodeGenVisitor.CodeGen left_to_right {[1%N := 0%N; 2%N := 1%N]}
    (ExpressionMul three
       [(ExpressionVar var_x, ExpressionConstant two);
        (ExpressionVar var_y, ExpressionConstant one)])
  = Returns "(3 * pow(p[0], 2.000000) * p[1])".
Proof.
  destruct (multiplication_factors left_to_right {[1%N := 0%N; 2%N := 1%N]} three)
    as [Hproduct _].
  apply (Hproduct
           [(ExpressionVar var_x, ExpressionConstant two);
            (ExpressionVar var_y, ExpressionConstant one)]
           [("p[0]", "2.000000"); ("p[1]", "")]).
  constructor; [split; [reflexivity | intros _; reflexivity]|].
  constructor; [split; [reflexivity | intros H; discriminate H]|].
  constructor.
Defined.

(** ** How the lowering fails *)

(** The dispatch on a unary and on a binary node. *)
Lemma CodeGen_unary (ord : sequencing) (m : gmap N N) (k : UnaryKind)
  (a : Expression) :
  CodeGenVisitor.CodeGen ord m (UnaryExpression k a)
  = (s <- CodeGenVisitor.CodeGen ord m a ;;
     Returns (unary_function k +:+ "(" +:+ s +:+ ")")).
Proof. destruct k; reflexivity. Qed.

Lemma CodeGen_binary (ord : sequencing) (m : gmap N N) (k : BinaryKind)
  (a b : Expression) :
  CodeGenVisitor.CodeGen ord m (BinaryExpression k a b)
  = (s <- both (plus_order ord) (CodeGenVisitor.CodeGen ord m a)
            (CodeGenVisitor.CodeGen ord m b) ;;
     Returns (binary_text k s.1 s.2)).
Proof. destruct k; reflexivity. Qed.

(** An exception that leaves a loop was thrown by the lowering of one of the
    entries. *)
Lemma VisitAddition_loop_throws_inv (rec : Expression -> outcome string)
  (items : list (Expression * double)) (oss : string) (err : runtime_error) :
  CodeGenVisitor.VisitAddition_loop rec items oss = Throws err ->
  exists it, it ∈ items /\ rec it.1 = Throws err.
Proof.
  revert oss. induction items as [|[e_i c_i] rest IH]; intros oss H.
  - discriminate.
  - simpl in H.
    assert (Hcase : rec e_i = Throws err \/
                    exists oss', CodeGenVisitor.VisitAddition_loop rec rest oss'
                                 = Throws err).
    { destruct (double_eqb c_i one);
        apply bind_throws_inv in H as [H | (s & _ & H)]; eauto. }
    destruct Hcase as [Hhere | [oss' Hrest]].
    + exists (e_i, c_i). split; [apply list_elem_of_here | exact Hhere].
    + apply IH in Hrest as (it & Hin & Hit).
      exists it. split; [now apply list_elem_of_further | exact Hit].
Qed.

Lemma VisitMultiplication_loop_throws_inv (ord : sequencing)
  (rec : Expression -> outcome string)
  (items : list (Expression * Expression)) (oss : string) (err : runtime_error) :
  CodeGenVisitor.VisitMultiplication_loop ord rec items oss = Throws err ->
  exists it, it ∈ items /\ (rec it.1 = Throws err \/ rec it.2 = Throws err).
Proof.
  revert oss. induction items as [|[e_1 e_2] rest IH]; intros oss H.
  - discriminate.
  - simpl in H.
    assert (Hcase : (rec e_1 = Throws err \/ rec e_2 = Throws err) \/
                    exists oss', CodeGenVisitor.VisitMultiplication_loop ord rec rest oss'
                                 = Throws err).
    { destruct (is_one e_2);
        apply bind_throws_inv in H as [H | (s & _ & H)]; eauto.
      left. now apply both_throws_inv in H. }
    destruct Hcase as [Hhere | [oss' Hrest]].
    + exists (e_1, e_2). split; [apply list_elem_of_here | exact Hhere].
    + apply IH in Hrest as (it & Hin & Hit).
      exists it. split; [now apply list_elem_of_further | exact Hit].
Qed.

(** A loop over entries of which one fails to lower throws. *)
Lemma VisitAddition_loop_throws (rec : Expression -> outcome string)
  (items : list (Expression * double)) (oss : string) :
  Exists (fun it => exists err, rec it.1 = Throws err) items ->
  exists err, CodeGenVisitor.VisitAddition_loop rec items oss = Throws err.
Proof.
  intros H. revert oss.
  induction H as [[e_i c_i] rest [err Herr] | [e_i c_i] rest _ IH]; intros oss; simpl.
  - simpl in Herr. rewrite Herr. destruct (double_eqb c_i one); simpl; eauto.
  - destruct (rec e_i) as [s|err]; destruct (double_eqb c_i one); simpl; eauto.
Qed.

Lemma VisitMultiplication_loop_throws (ord : sequencing)
  (rec : Expression -> outcome string)
  (items : list (Expression * Expression)) (oss : string) :
  Exists (fun it => (exists err, rec it.1 = Throws err) \/
                    (is_one it.2 = false /\ exists err, rec it.2 = Throws err)) items ->
  exists err, CodeGenVisitor.VisitMultiplication_loop ord rec items oss = Throws err.
Proof.
  intros H. revert oss.
  induction H as [[e_1 e_2] rest Hhere | [e_1 e_2] rest _ IH]; intros oss; simpl.
  - simpl in Hhere. destruct Hhere as [[err Herr] | [Hone [err Herr]]].
    + rewrite Herr. destruct (is_one e_2); simpl; [eauto|].
      destruct (both_throws_l (A := string) (shift_order ord) (rec e_2) err)
        as [err' ->]. simpl. eauto.
    + rewrite Hone, Herr.
      destruct (both_throws_r (B := string) (shift_order ord) (rec e_1) err)
        as [err' ->]. simpl. eauto.
  - destruct (is_one e_2).
    + destruct (rec e_1) as [s|err]; simpl; eauto.
    + destruct (both (shift_order ord) (rec e_1) (rec e_2)) as [s|err]; simpl; eauto.
Qed.

Lemma is_one_supported (e : Expression) :
  is_one e = true -> contains_unsupported e = false.
Proof. intros H. apply is_one_literal in H. now rewrite H. Qed.

(** An expression with an unsupported node is never lowered. *)
Lemma unsupported_throws (ord : sequencing) (m : gmap N N) (e : Expression) :
  contains_unsupported e = true ->
  exists err, CodeGenVisitor.CodeGen ord m e = Throws err.
Proof.
  induction e as [v|c|c items IH|c items IH|k a IH|k a b IHa IHb|f a b _ _|name vars]
    using Expression_induction; intros H; try discriminate.
  - simpl in *. destruct (VisitAddition_loop_throws (CodeGenVisitor.CodeGen ord m) items
                ("(" +:+ put_double c)) as [err Herr].
    + apply existsb_exists in H as (it & Hin & Hit).
      apply Exists_exists. exists it. split; [now apply list_elem_of_In|].
      apply list_elem_of_In in Hin.
      rewrite Forall_forall in IH. now apply IH.
    + exists err. unfold CodeGenVisitor.VisitAddition. now rewrite Herr.
  - simpl in *. destruct (VisitMultiplication_loop_throws ord (CodeGenVisitor.CodeGen ord m) items
                ("(" +:+ put_double c)) as [err Herr].
    + apply existsb_exists in H as (it & Hin & Hit).
      apply Exists_exists. exists it. split; [now apply list_elem_of_In|].
      apply list_elem_of_In in Hin.
      rewrite Forall_forall in IH. destruct (IH it Hin) as [IH1 IH2].
      apply orb_true_iff in Hit as [Hit | Hit]; [left; now apply IH1|].
      right. split; [|now apply IH2].
      destruct (is_one it.2) eqn:E; [|reflexivity].
      apply is_one_supported in E. congruence.
    + exists err. unfold CodeGenVisitor.VisitMultiplication. now rewrite Herr.
  - simpl in H. rewrite CodeGen_unary. destruct (IH H) as [err ->]. simpl. eauto.
  - simpl in H. rewrite CodeGen_binary. apply orb_true_iff in H as [H | H].
    + destruct (IHa H) as [err ->].
      destruct (both_throws_l (A := string) (plus_order ord)
                  (CodeGenVisitor.CodeGen ord m b) err) as [err' ->].
      simpl. eauto.
    + destruct (IHb H) as [err ->].
      destruct (both_throws_r (B := string) (plus_order ord)
                  (CodeGenVisitor.CodeGen ord m a) err) as [err' ->].
      simpl. eauto.
  - eauto.
  - eauto.
Qed.

(** The only exceptions of the lowering are the three of the visitor; an
    expression whose variables are all bound does not throw UnboundVariable. *)
Lemma lowering_errors (ord : sequencing) (m : gmap N N) (e : Expression)
  (err : runtime_error) :
  CodeGenVisitor.CodeGen ord m e = Throws err ->
  (err = UnboundVariable /\ variables_bound m e = false) \/ UnsupportedConstruct err.
Proof.
  induction e as [v|c|c items IH|c items IH|k a IH|k a b IHa IHb|f a b _ _|name vars]
    using Expression_induction; intros H.
  - simpl in *. unfold CodeGenVisitor.VisitVariable in H.
    destruct (m !! get_id v) eqn:Hm; [discriminate|].
    injection H as <-. left. split; [reflexivity|].
    apply bool_decide_eq_false. intros [x Hx]. congruence.
  - discriminate.
  - simpl in H. unfold CodeGenVisitor.VisitAddition in H.
    apply bind_throws_inv in H as [H | (s & _ & H)]; [|discriminate].
    apply VisitAddition_loop_throws_inv in H as (it & Hin & Hit).
    rewrite Forall_forall in IH.
    destruct (IH it Hin Hit) as [[-> Hnb] | Hu]; [left | now right].
    split; [reflexivity|]. simpl.
    apply not_true_is_false. intros Hall.
    rewrite forallb_forall in Hall.
    apply list_elem_of_In in Hin. specialize (Hall it Hin). congruence.
  - simpl in H. unfold CodeGenVisitor.VisitMultiplication in H.
    apply bind_throws_inv in H as [H | (s & _ & H)]; [|discriminate].
    apply VisitMultiplication_loop_throws_inv in H as (it & Hin & Hit).
    rewrite Forall_forall in IH. destruct (IH it Hin) as [IH1 IH2].
    assert (Hcase : (err = UnboundVariable /\
                     variables_bound m it.1 && variables_bound m it.2 = false) \/
                    UnsupportedConstruct err).
    { destruct Hit as [Hit | Hit].
      - destruct (IH1 Hit) as [[-> Hnb] | Hu]; [left | now right].
        split; [reflexivity | now rewrite Hnb].
      - destruct (IH2 Hit) as [[-> Hnb] | Hu]; [left | now right].
        split; [reflexivity | rewrite Hnb; apply andb_false_r]. }
    destruct Hcase as [[-> Hnb] | Hu]; [left | now right].
    split; [reflexivity|]. simpl.
    apply not_true_is_false. intros Hall.
    rewrite forallb_forall in Hall.
    apply list_elem_of_In in Hin. specialize (Hall it Hin). simpl in Hall. congruence.
  - rewrite CodeGen_unary in H.
    apply bind_throws_inv in H as [H | (s & _ & H)]; [|discriminate].
    exact (IH H).
  - rewrite CodeGen_binary in H.
    apply bind_throws_inv in H as [H | (s & _ & H)]; [|discriminate].
    apply both_throws_inv in H as [H | H].
    + destruct (IHa H) as [[-> Hnb] | Hu]; [left | now right].
      split; [reflexivity | simpl; now rewrite Hnb].
    + destruct (IHb H) as [[-> Hnb] | Hu]; [left | now right].
      split; [reflexivity | simpl; rewrite Hnb; apply andb_false_r].
  - injection H as <-. right. now left.
  - injection H as <-. right. now right.
Qed.

(** ** The batch loop *)

Lemma CodeGenData_loop_statements (ord : sequencing) (m : gmap N N)
  (data : list Expression) (fuel : nat) (i : nat) (os : string)
  (texts : list string) :
  Forall2 (fun d t => CodeGenVisitor.CodeGen ord m d = Returns t)
          (take fuel (drop i data)) texts ->
  (i + fuel <= length data)%nat ->
  internal.CodeGenData_loop ord m data fuel (Z.of_nat i) os
  = (os +:+ spec_statements (Z.of_nat i) texts, internal.Normal).
Proof.
  revert i os texts. induction fuel as [|fuel IH]; intros i os texts H Hlen.
  - simpl in H. inversion H; subst. simpl. now rewrite append_nil_r.
  - destruct (lookup_lt_is_Some_2 data i) as [d Hd]; [lia|].
    rewrite (drop_S _ _ _ Hd) in H. simpl in H.
    inversion H as [|? t ? texts' Ht Hrest]; subst.
    simpl. rewrite Nat2Z.id, Hd, Ht.
    replace (Z.of_nat i + 1) with (Z.of_nat (S i)) by lia.
    rewrite (IH (S i) _ texts' Hrest) by lia.
    f_equal. replace (Z.of_nat i + 1) with (Z.of_nat (S i)) by lia.
    now rewrite ?append_assoc.
Qed.

(** The loop writes the statements of the cells that lower and goes on from
    the cell after them. *)
Lemma CodeGenData_loop_prefix (ord : sequencing) (m : gmap N N)
  (data : list Expression) (k fuel i : nat) (os : string) (texts : list string) :
  Forall2 (fun d t => CodeGenVisitor.CodeGen ord m d = Returns t)
          (take k (drop i data)) texts ->
  (i + k <= length data)%nat ->
  (k <= fuel)%nat ->
  internal.CodeGenData_loop ord m data fuel (Z.of_nat i) os
  = internal.CodeGenData_loop ord m data (fuel - k) (Z.of_nat (i + k))
      (os +:+ spec_statements (Z.of_nat i) texts).
Proof.
  revert fuel i os texts. induction k as [|k IH]; intros fuel i os texts H Hlen Hfuel.
  - simpl in H. inversion H; subst. simpl spec_statements.
    rewrite append_nil_r. repeat f_equal; lia.
  - destruct (lookup_lt_is_Some_2 data i) as [d Hd]; [lia|].
    rewrite (drop_S _ _ _ Hd) in H. simpl in H.
    inversion H as [|? t ? texts' Ht Hrest]; subst.
    destruct fuel as [|fuel]; [lia|].
    simpl. rewrite Nat2Z.id, Hd, Ht.
    replace (Z.of_nat i + 1) with (Z.of_nat (S i)) by lia.
    rewrite (IH fuel (S i) _ texts' Hrest) by lia.
    replace (S i + k)%nat with (i + S k)%nat by lia.
    f_equal. now rewrite ?append_assoc.
Qed.

(** The sink and the exception of a batch generation whose first cell that
    does not lower is cell [k]. *)
Lemma CodeGenData_failure (ord : sequencing) (function_name : string)
  (parameters : list SymVariable) (data : list Expression) (size : Z)
  (os : string) (k : nat) (e : Expression) (err : runtime_error)
  (texts : list string) :
  (k < Z.to_nat size)%nat ->
  data !! k = Some e ->
  CodeGenVisitor.CodeGen ord (build_id_to_idx_map parameters) e = Throws err ->
  Forall2 (fun d t =>
             CodeGenVisitor.CodeGen ord (build_id_to_idx_map parameters) d = Returns t)
          (take k data) texts ->
  internal.CodeGenData ord function_name parameters data size os
  = (os +:+ "void " +:+ function_name +:+ "(const double* p, double* m) {" +:+ nl
        +:+ spec_statements 0 texts
        +:+ match shift_order ord with
            | LeftToRight => "    m[" +:+ dec_of_Z (Z.of_nat k) +:+ "] = "
            | RightToLeft => ""
            end,
     internal.Exception err).
Proof.
  intros Hsize Hk Herr Htexts. unfold internal.CodeGenData.
  change 0 with (Z.of_nat 0).
  rewrite (CodeGenData_loop_prefix _ _ _ k _ 0 _ texts);
    [| now rewrite drop_0 | apply lookup_lt_Some in Hk; lia | lia].
  destruct (Z.to_nat size - k)%nat as [|fuel] eqn:Hfuel; [lia|].
  simpl. rewrite Nat2Z.id, Hk, Herr.
  destruct (shift_order ord); f_equal; rewrite ?append_assoc; [reflexivity|].
  now rewrite append_nil_r.
Qed.


(** ** Unsupported constructs (C6) *)




(** ** The batch generator (C7) *)

(** C7, as the code has it. The batch generator has no check of the data
    size against [rows * cols] and no MalformedInput error: [CodeGenData]
    receives the size alone and [CodeGenMeta], which receives [rows] and
    [cols], cannot fail. When the [size] cells of [data] lower to [texts], the
    generator returns after it has written the header, exactly one statement
    [m[i] = texts[i];] for each index [i] in [[0, size)], and the footer. *)
Theorem batch_statements (ord : sequencing) (function_name : string)
  (parameters : list SymVariable) (data : list Expression) (size : Z)
  (os : string) (texts : list string) :
  (Z.to_nat size <= length data)%nat ->
  Forall2 (fun d t =>
             CodeGenVisitor.CodeGen ord (build_id_to_idx_map parameters) d = Returns t)
          (take (Z.to_nat size) data) texts ->
  internal.CodeGenData ord function_name parameters data size os
  = (os +:+ "void " +:+ function_name +:+ "(const double* p, double* m) {" +:+ nl
        +:+ spec_statements 0 texts +:+ "}" +:+ nl,
     internal.Normal) /\
  length texts = Z.to_nat size /\
  (forall i t, texts !! i = Some t ->
     exists d, data !! i = Some d /\
       CodeGenVisitor.CodeGen ord (build_id_to_idx_map parameters) d = Returns t).
Proof.
  intros Hsize Htexts. split; [|split].
  - unfold internal.CodeGenData. change 0 with (Z.of_nat 0).
    rewrite (CodeGenData_loop_statements _ _ _ _ 0 _ texts);
      [| now rewrite drop_0 | lia].
    f_equal. now rewrite ?append_assoc.
  - apply Forall2_length in Htexts. rewrite <- Htexts, length_take. lia.
  - intros i t Ht.
    destruct (Forall2_lookup_r _ _ _ _ _ Htexts Ht) as (d & Hd & Hlower).
    exists d. split; [|exact Hlower].
    apply lookup_take_Some in Hd. tauto.
Qed.

Lemma batch_statements_witness :
  internal.CodeGenData left_to_right "f" [var_x; var_y]
    [sample_sum var_x var_y; ExpressionVar var_y] 2 ""
  = ("void f(const double* p, double* m) {" +:+ nl
     +:+ "    m[0] = (2 + p[0] + (3 * p[1]));" +:+ nl
     +:+ "    m[1] = p[1];" +:+ nl
     +:+ "}" +:+ nl,
     internal.Normal).
Proof.
  apply (batch_statements left_to_right "f" [var_x; var_y]
           [sample_sum var_x var_y; ExpressionVar var_y] 2 ""
           ["(2 + p[0] + (3 * p[1]))"; "p[1]"]).
  - simpl. lia.
  - constructor; [reflexivity|]. constructor; [reflexivity|]. constructor.
Defined.

(** The claim of C7 on the shape fails: with one cell of data announced as a
    matrix of 2 rows and 2 columns, the function and its meta data are both
    written and no error is raised. *)
Lemma batch_shape_counterexample :
  1 <> 2 * 2 /\
  internal.CodeGenData left_to_right "f" [var_x; var_y] [ExpressionVar var_x] 1 ""
  = ("void f(const double* p, double* m) {" +:+ nl
     +:+ "    m[0] = p[0];" +:+ nl
     +:+ "}" +:+ nl,
     internal.Normal) /\
  internal.CodeGenMeta "f" 2 2 2 ""
  = "typedef struct {" +:+ nl
    +:+ "    /* p: input, vector */" +:+ nl
    +:+ "    struct { int size; } p;" +:+ nl
    +:+ "    /* m: output, matrix */" +:+ nl
    +:+ "    struct { int rows; int cols; } m;" +:+ nl
    +:+ "} f_meta_t;" +:+ nl
    +:+ "f_meta_t f_meta() { return {{2}, {2, 2}}; }" +:+ nl.
Proof. repeat split; try reflexivity. lia. Qed.

(** ** Meta data (C8) *)

(** C8. The text of the scalar generator ends with a meta accessor that
    returns the length of the parameter list as input size; [CodeGenMeta],
    called with that length, [rows] and [cols], appends to the sink the type
    and a meta accessor that returns exactly these three numbers; and the
    decimal texts in the accessors read back as the numbers. *)
Theorem metadata_shape (function_name : string) (parameters : list SymVariable) :
  (forall ord e text,
      CodeGen ord function_name parameters e = Returns text ->
      exists body,
        text = body +:+ spec_scalar_meta function_name (N.of_nat (length parameters))) /\
  (forall rows cols os,
      exists type,
        internal.CodeGenMeta function_name (Z.of_nat (length parameters)) rows cols os
        = os +:+ type
             +:+ spec_batch_meta function_name (Z.of_nat (length parameters)) rows cols) /\
  N_of_dec (dec_of_N (N.of_nat (length parameters))) = Some (N.of_nat (length parameters)) /\
  (forall z, Z_of_dec (dec_of_Z z) = Some z).
Proof.
  split; [|split; [|split]].
  - intros ord e text H. unfold CodeGen in H.
    apply bind_returns_inv in H as (s & _ & H). injection H as <-.
    exists ("double " +:+ function_name +:+ "(const double* p) {" +:+ nl
            +:+ "    return " +:+ s +:+ ";" +:+ nl
            +:+ "}" +:+ nl
            +:+ "typedef struct {" +:+ nl
            +:+ "    /* p: input, vector */" +:+ nl
            +:+ "    struct { int size; } p;" +:+ nl
            +:+ "} " +:+ function_name +:+ "_meta_t;" +:+ nl).
    unfold spec_scalar_meta. same_text.
  - intros rows cols os.
    exists ("typedef struct {" +:+ nl
            +:+ "    /* p: input, vector */" +:+ nl
            +:+ "    struct { int size; } p;" +:+ nl
            +:+ "    /* m: output, matrix */" +:+ nl
            +:+ "    struct { int rows; int cols; } m;" +:+ nl
            +:+ "} " +:+ function_name +:+ "_meta_t;" +:+ nl).
    unfold internal.CodeGenMeta, spec_batch_meta. same_text.
  - apply N_of_dec_of_N.
  - apply Z_of_dec_of_Z.
Qed.

Lemma metadata_shape_witness :
  exists body,
    "double f(const double* p) {" +:+ nl
    +:+ "    return p[1];" +:+ nl
    +:+ "}" +:+ nl
    +:+ "typedef struct {" +:+ nl
    +:+ "    /* p: input, vector */" +:+ nl
    +:+ "    struct { int size; } p;" +:+ nl
    +:+ "} f_meta_t;" +:+ nl
    +:+ "f_meta_t f_meta() { return {{2}}; }" +:+ nl
    = body +:+ spec_scalar_meta "f" (N.of_nat (length [var_x; var_y])).
Proof.
  destruct (metadata_shape "f" [var_x; var_y]) as [Hscalar _].
  apply (Hscalar left_to_right (ExpressionVar var_y)). reflexivity.
Defined.

(** ** Determinism (C9) *)

Lemma VisitAddition_loop_order (rec rec' : Expression -> outcome string)
  (items : list (Expression * double)) (oss text : string) :
  Forall (fun it => forall t, rec it.1 = Returns t -> rec' it.1 = Returns t) items ->
  CodeGenVisitor.VisitAddition_loop rec items oss = Returns text ->
  CodeGenVisitor.VisitAddition_loop rec' items oss = Returns text.
Proof.
  intros H. revert oss.
  induction H as [|[e_i c_i] rest Hit _ IH]; intros oss Hloop; [exact Hloop|].
  simpl in *. destruct (double_eqb c_i one);
    apply bind_returns_inv in Hloop as (s & Hs & Hloop);
    rewrite (Hit s Hs); simpl; now apply IH.
Qed.

Lemma VisitMultiplication_loop_order (ord ord' : sequencing)
  (rec rec' : Expression -> outcome string)
  (items : list (Expression * Expression)) (oss text : string) :
  Forall (fun it => (forall t, rec it.1 = Returns t -> rec' it.1 = Returns t) /\
                    (forall t, rec it.2 = Returns t -> rec' it.2 = Returns t)) items ->
  CodeGenVisitor.VisitMultiplication_loop ord rec items oss = Returns text ->
  CodeGenVisitor.VisitMultiplication_loop ord' rec' items oss = Returns text.
Proof.
  intros H. revert oss.
  induction H as [|[e_1 e_2] rest [H1 H2] _ IH]; intros oss Hloop; [exact Hloop|].
  simpl in *. destruct (is_one e_2);
    apply bind_returns_inv in Hloop as (s & Hs & Hloop).
  - rewrite (H1 s Hs). simpl. now apply IH.
  - apply both_returns_inv in Hs as [Hs1 Hs2].
    rewrite (H1 _ Hs1), (H2 _ Hs2), both_returns. simpl. now apply IH.
Qed.

(** The text of an expression does not depend on the order of evaluation. *)
Lemma CodeGen_order (ord ord' : sequencing) (m : gmap N N) (e : Expression)
  (text : string) :
  CodeGenVisitor.CodeGen ord m e = Returns text ->
  CodeGenVisitor.CodeGen ord' m e = Returns text.
Proof.
  revert text.
  induction e as [v|c|c items IH|c items IH|k a IH|k a b IHa IHb|f a b _ _|name vars]
    using Expression_induction; intros text H; try exact H.
  - simpl in *. unfold CodeGenVisitor.VisitAddition in *.
    apply bind_returns_inv in H as (oss & Hloop & H).
    now rewrite (VisitAddition_loop_order _ _ _ _ _ IH Hloop).
  - simpl in *. unfold CodeGenVisitor.VisitMultiplication in *.
    apply bind_returns_inv in H as (oss & Hloop & H).
    now rewrite (VisitMultiplication_loop_order ord ord' _ _ _ _ _ IH Hloop).
  - rewrite CodeGen_unary in *.
    apply bind_returns_inv in H as (s & Hs & H). now rewrite (IH _ Hs).
  - rewrite CodeGen_binary in *.
    apply bind_returns_inv in H as (s & Hs & H).
    apply both_returns_inv in Hs as [Hs1 Hs2].
    rewrite (IHa _ Hs1), (IHb _ Hs2), both_returns. exact H.
Qed.

Lemma CodeGenData_loop_order (ord ord' : sequencing) (m : gmap N N)
  (data : list Expression) (fuel : nat) (i : Z) (os os' : string) :
  internal.CodeGenData_loop ord m data fuel i os = (os', internal.Normal) ->
  internal.CodeGenData_loop ord' m data fuel i os = (os', internal.Normal).
Proof.
  revert i os. induction fuel as [|fuel IH]; intros i os H; [exact H|].
  simpl in *. destruct (data !! Z.to_nat i) as [d|];
    [|destruct (shift_order ord); discriminate].
  destruct (CodeGenVisitor.CodeGen ord m d) as [s|err] eqn:Hd.
  - rewrite (CodeGen_order ord ord' m d s Hd). now apply IH.
  - destruct (shift_order ord); discriminate.
Qed.

(** C9. Two calls on the same function name, parameter list and expression
    give the same text, whatever order of evaluation each of them takes: when
    one returns a text, so does the other, and it is the same text. The same
    holds of the text that the batch generator writes to a sink. *)
Theorem generation_deterministic (ord ord' : sequencing) (function_name : string)
  (parameters : list SymVariable) :
  (forall e text,
      CodeGen ord function_name parameters e = Returns text ->
      CodeGen ord' function_name parameters e = Returns text) /\
  (forall data size os os',
      internal.CodeGenData ord function_name parameters data size os
      = (os', internal.Normal) ->
      internal.CodeGenData ord' function_name parameters data size os
      = (os', internal.Normal)).
Proof.
  split.
  - intros e text H. unfold CodeGen in *.
    apply bind_returns_inv in H as (s & Hs & H).
    now rewrite (CodeGen_order ord ord' _ _ _ Hs).
  - intros data size os os' H. unfold internal.CodeGenData in *.
    destruct (internal.CodeGenData_loop ord _ data _ 0 _) as [os1 [| |]] eqn:Hloop;
      try discriminate.
    now rewrite (CodeGenData_loop_order ord ord' _ _ _ _ _ _ Hloop).
Qed.

Lemma generation_deterministic_witness :
  CodeGen right_to_left "f" [var_x; var_y]
    (BinaryExpression Div (ExpressionVar var_x) (sample_sum var_x var_y))
  = Returns ("double f(const double* p) {" +:+ nl
             +:+ "    return (p[0] / (2 + p[0] + (3 * p[1])));" +:+ nl
             +:+ "}" +:+ nl
             +:+ "typedef struct {" +:+ nl
             +:+ "    /* p: input, vector */" +:+ nl
             +:+ "    struct { int size; } p;" +:+ nl
             +:+ "} f_meta_t;" +:+ nl
             +:+ "f_meta_t f_meta() { return {{2}}; }" +:+ nl).
Proof.
  destruct (generation_deterministic left_to_right right_to_left "f" [var_x; var_y])
    as [Hscalar _].
  apply Hscalar. reflexivity.
Defined.

(** ** Constants (C2) *)

(** C2, as the code has it. A Constant node [c] is lowered to the text of
    [std::to_string], [c] in fixed notation with six decimals. For a finite
    [c] the text reads as a multiple of [10^-6] within [0.5 * 10^-6] of [c],
    and as [c] itself when [c] is a multiple of [10^-6]. For an infinite [c]
    the text is [inf] or [-inf] and parses back to [c]; for a NaN [c] the
    text is [nan] or [-nan], by the sign bit of [c], and parses back to a NaN
    with that sign bit. *)
Theorem constant_text (ord : sequencing) (m : gmap N N) (c : double) :
  CodeGenVisitor.CodeGen ord m (ExpressionConstant c) = Returns (to_string_double c) /\
  match Q_of_double c with
  | Some v =>
      exists q,
        Q_of_text (to_string_double c) = Some q /\
        (exists n : Z, (q == n # 1000000)%Q) /\
        (Qabs (q - v) <= 1 # 2000000)%Q /\
        ((exists k : Z, (v * inject_Z 1000000 == inject_Z k)%Q) -> (q == v)%Q)
  | None =>
      strtod (to_string_double c) = Some c /\
      exists s,
        (c = B754_infinity s /\ to_string_double c = sign_text s +:+ "inf") \/
        (c = B754_nan s /\ to_string_double c = sign_text s +:+ "nan")
  end.
Proof.
  split; [reflexivity|].
  destruct c as [s|s|s|s mc ec].
  - exists (0 # 1000000)%Q. split; [now destruct s|].
    split; [now exists 0|]. split; [discriminate | reflexivity].
  - split; [now destruct s|]. exists s. now left.
  - split; [now destruct s|]. exists s. now right.
  - destruct (Q_of_double (B754_finite s mc ec)) as [v|] eqn:Hv.
    + now apply to_string_close.
    + unfold Q_of_double in Hv. destruct (fraction mc ec). discriminate.
Qed.

Lemma constant_text_witness :
  exists q,
    Q_of_text (to_string_double two_and_a_half) = Some q /\
    (q == 5629499534213120 # 2251799813685248)%Q.
Proof.
  destruct (constant_text left_to_right ∅ two_and_a_half)
    as [_ (q & Hq & _ & _ & Hexact)].
  exists q. split; [exact Hq|].
  apply Hexact. exists 2500000. reflexivity.
Defined.

(** The claim of C2 fails: the double [1e-7] is lowered to [0.000000],
    which parses back as [0.0]. *)
Lemma constant_round_trip_counterexample :
  valid_binary prec emax (spec_of_double tenth_of_a_millionth) = true /\
  CodeGenVisitor.CodeGen left_to_right ∅ (ExpressionConstant tenth_of_a_millionth)
  = Returns "0.000000" /\
  strtod "0.000000" = Some (B754_zero false) /\
  B754_zero false <> tenth_of_a_millionth.
Proof. repeat split; try reflexivity. discriminate. Qed.

(** * Further properties of the generator *)

(** ** When the lowering returns *)

(** An exception of the lowering has its cause in the expression: an unbound
    variable for UnboundVariable, an if-then-else or an uninterpreted function
    for the two other exceptions. *)
Lemma throws_cause (ord : sequencing) (m : gmap N N) (e : Expression)
  (err : runtime_error) :
  CodeGenVisitor.CodeGen ord m e = Throws err ->
  (err = UnboundVariable /\ variables_bound m e = false) \/
  (UnsupportedConstruct err /\ contains_unsupported e = true).
Proof.
  induction e as [v|c|c items IH|c items IH|k a IH|k a b IHa IHb|f a b _ _|name vars]
    using Expression_induction; intros H.
  - destruct (lowering_errors _ _ _ _ H) as [Hb | [Hu | Hu]]; [now left | |];
      simpl in H; unfold CodeGenVisitor.VisitVariable in H;
      destruct (m !! get_id v); rewrite Hu in H; discriminate.
  - discriminate.
  - simpl in H. unfold CodeGenVisitor.VisitAddition in H.
    apply bind_throws_inv in H as [H | (s & _ & H)]; [|discriminate].
    apply VisitAddition_loop_throws_inv in H as (it & Hin & Hit).
    rewrite Forall_forall in IH. apply list_elem_of_In in Hin as Hin'.
    destruct (IH it Hin Hit) as [[-> Hnb] | [Hu Hc]]; [left | right];
      (split; [done|]); simpl.
    + apply not_true_is_false. intros Hall. rewrite forallb_forall in Hall.
      specialize (Hall it Hin'). congruence.
    + apply existsb_exists. now exists it.
  - simpl in H. unfold CodeGenVisitor.VisitMultiplication in H.
    apply bind_throws_inv in H as [H | (s & _ & H)]; [|discriminate].
    apply VisitMultiplication_loop_throws_inv in H as (it & Hin & Hit).
    rewrite Forall_forall in IH. destruct (IH it Hin) as [IH1 IH2].
    apply list_elem_of_In in Hin as Hin'.
    assert (Hcase :
      (err = UnboundVariable /\
       variables_bound m it.1 && variables_bound m it.2 = false) \/
      (UnsupportedConstruct err /\
       contains_unsupported it.1 || contains_unsupported it.2 = true)).
    { destruct Hit as [Hit | Hit].
      - destruct (IH1 Hit) as [[-> Hnb] | [Hu Hc]]; [left | right];
          (split; [done|]); [now rewrite Hnb | now rewrite Hc].
      - destruct (IH2 Hit) as [[-> Hnb] | [Hu Hc]]; [left | right];
          (split; [done|]);
          [rewrite Hnb; apply andb_false_r | rewrite Hc; apply orb_true_r]. }
    destruct Hcase as [[-> Hnb] | [Hu Hc]]; [left | right];
      (split; [done|]); simpl.
    + apply not_true_is_false. intros Hall. rewrite forallb_forall in Hall.
      specialize (Hall it Hin'). simpl in Hall. congruence.
    + apply existsb_exists. now exists it.
  - rewrite CodeGen_unary in H.
    apply bind_throws_inv in H as [H | (s & _ & H)]; [|discriminate].
    exact (IH H).
  - rewrite CodeGen_binary in H.
    apply bind_throws_inv in H as [H | (s & _ & H)]; [|discriminate].
    apply both_throws_inv in H as [H | H].
    + destruct (IHa H) as [[-> Hnb] | [Hu Hc]]; [left | right];
        (split; [done|]); simpl; [now rewrite Hnb | now rewrite Hc].
    + destruct (IHb H) as [[-> Hnb] | [Hu Hc]]; [left | right];
        (split; [done|]); simpl;
        [rewrite Hnb; apply andb_false_r | rewrite Hc; apply orb_true_r].
  - injection H as <-. right. split; [now left | reflexivity].
  - injection H as <-. right. split; [now right | reflexivity].
Qed.

Lemma Forall2_elem_of_l {A B : Type} (R : A -> B -> Prop) (l : list A)
  (k : list B) (x : A) :
  Forall2 R l k -> x ∈ l -> exists y, R x y.
Proof.
  intros H Hin. apply list_elem_of_lookup in Hin as [i Hi].
  destruct (Forall2_lookup_l _ _ _ _ _ H Hi) as (y & _ & Hy). eauto.
Qed.

(** An expression that is lowered has all its variables bound. *)
Lemma returns_bound (ord : sequencing) (m : gmap N N) (e : Expression)
  (text : string) :
  CodeGenVisitor.CodeGen ord m e = Returns text -> variables_bound m e = true.
Proof.
  revert text.
  induction e as [v|c|c items IH|c items IH|k a IH|k a b IHa IHb|f a b _ _|name vars]
    using Expression_induction; intros text H; try discriminate.
  - simpl in *. unfold CodeGenVisitor.VisitVariable in H.
    apply bool_decide_eq_true. destruct (m !! get_id v); [eauto | discriminate].
  - reflexivity.
  - simpl in *. unfold CodeGenVisitor.VisitAddition in H.
    apply bind_returns_inv in H as (oss & Hloop & _).
    apply VisitAddition_loop_returns_inv in Hloop as [texts Htexts].
    apply forallb_forall. intros it Hin. apply list_elem_of_In in Hin.
    rewrite Forall_forall in IH.
    destruct (Forall2_elem_of_l _ _ _ _ Htexts Hin) as [t Ht].
    exact (IH it Hin t Ht).
  - simpl in *. unfold CodeGenVisitor.VisitMultiplication in H.
    apply bind_returns_inv in H as (oss & Hloop & _).
    apply VisitMultiplication_loop_returns_inv in Hloop as [texts Htexts].
    apply forallb_forall. intros it Hin. apply list_elem_of_In in Hin.
    rewrite Forall_forall in IH. destruct (IH it Hin) as [IH1 IH2].
    destruct (Forall2_elem_of_l _ _ _ _ Htexts Hin) as [t [Ht1 Ht2]].
    rewrite (IH1 _ Ht1). simpl.
    destruct (is_one it.2) eqn:Hone.
    + apply is_one_literal in Hone. now rewrite Hone.
    + exact (IH2 _ (Ht2 eq_refl)).
  - rewrite CodeGen_unary in H.
    apply bind_returns_inv in H as (s & Hs & _). exact (IH _ Hs).
  - rewrite CodeGen_binary in H.
    apply bind_returns_inv in H as (s & Hs & _).
    apply both_returns_inv in Hs as [Hs1 Hs2].
    simpl. now rewrite (IHa _ Hs1), (IHb _ Hs2).
Qed.

(** The lowering returns a text exactly when the expression has no
    if-then-else and no uninterpreted function among its nodes and every
    variable in it is bound. *)
Theorem lowering_returns_iff (ord : sequencing) (m : gmap N N) (e : Expression) :
  (exists text, CodeGenVisitor.CodeGen ord m e = Returns text) <->
  contains_unsupported e = false /\ variables_bound m e = true.
Proof.
  split.
  - intros [text H]. split; [|exact (returns_bound _ _ _ _ H)].
    destruct (contains_unsupported e) eqn:Hu; [|reflexivity].
    destruct (unsupported_throws ord m e Hu) as [err Herr]. congruence.
  - intros [Hu Hb].
    destruct (CodeGenVisitor.CodeGen ord m e) as [text|err] eqn:H; [eauto|].
    destruct (throws_cause _ _ _ _ H) as [[_ Hnb] | [_ Hc]]; congruence.
Qed.


Lemma lowering_returns_iff_witness :
  exists text,
    CodeGenVisitor.CodeGen right_to_left (build_id_to_idx_map [var_x; var_y])
      (sample_sum var_x var_y) = Returns text.
Proof.
  apply (lowering_returns_iff right_to_left (build_id_to_idx_map [var_x; var_y])
           (sample_sum var_x var_y)).
  split; reflexivity.
Defined.


(** ** The indices of the parameters *)

#[local] Set Warnings "-clear-no-such-hyp".

Lemma emplace_parameters_app (ps1 ps2 : list SymVariable) (i : N) (m : gmap N N) :
  emplace_parameters (ps1 ++ ps2) i m
  = emplace_parameters ps2 (i + N.of_nat (length ps1)) (emplace_parameters ps1 i m).
Proof.
  revert i m. induction ps1 as [|p ps1 IH]; intros i m; simpl.
  - f_equal. lia.
  - rewrite IH. f_equal. lia.
Qed.

(** An index in the map is the position of a parameter with that identity,
    unless the identity was in the map before the loop. *)
Lemma emplace_parameters_lookup_inv (parameters : list SymVariable) (i : N)
  (m : gmap N N) (id x : N) :
  emplace_parameters parameters i m !! id = Some x ->
  m !! id = Some x \/
  (m !! id = None /\
   exists k v, parameters !! k = Some v /\ get_id v = id /\ x = (i + N.of_nat k)%N).
Proof.
  revert i m. induction parameters as [|p rest IH]; intros i m H; simpl in H.
  - now left.
  - apply IH in H as [H | (Hnone & k & v & Hk & Hid & ->)];
      rewrite emplace_lookup in *.
    + destruct (m !! id) as [y|] eqn:Hm; [now left | right].
      destruct (decide (get_id p = id)) as [Hp|]; [|discriminate].
      injection H as <-. split; [reflexivity|].
      exists 0%nat, p. repeat split; [exact Hp | lia].
    + right. destruct (m !! id) as [y|] eqn:Hm; [discriminate|].
      split; [reflexivity|]. exists (S k), v. repeat split; [exact Hk | exact Hid | lia].
Qed.

(** Every reference to a variable that is lowered reads the input array at
    the position of a parameter with the identity of the variable, and so
    below the size that the meta data reports. *)
Theorem index_in_range (ord : sequencing) (parameters : list SymVariable)
  (v : SymVariable) (text : string) :
  CodeGenVisitor.CodeGen ord (build_id_to_idx_map parameters) (ExpressionVar v)
  = Returns text ->
  exists (k : nat) (v' : SymVariable),
    (k < length parameters)%nat /\
    parameters !! k = Some v' /\
    get_id v' = get_id v /\
    text = "p[" +:+ dec_of_N (N.of_nat k) +:+ "]".
Proof.
  intros H. simpl in H. unfold CodeGenVisitor.VisitVariable in H.
  destruct (build_id_to_idx_map parameters !! get_id v) as [x|] eqn:Hx;
    [|discriminate].
  injection H as <-. unfold build_id_to_idx_map in Hx.
  apply emplace_parameters_lookup_inv in Hx
    as [Hx | (_ & k & v' & Hk & Hid & ->)].
  - rewrite lookup_empty in Hx. discriminate.
  - exists k, v'. split; [now apply lookup_lt_Some in Hk|].
    split; [exact Hk|]. split; [exact Hid|].
    now replace (0 + N.of_nat k)%N with (N.of_nat k) by lia.
Qed.

Lemma index_in_range_witness :
  exists (k : nat) (v' : SymVariable),
    (k < length [var_x; var_y; var_x])%nat /\
    [var_x; var_y; var_x] !! k = Some v' /\
    get_id v' = get_id var_y /\
    "p[1]" = "p[" +:+ dec_of_N (N.of_nat k) +:+ "]".
Proof.
  apply (index_in_range left_to_right [var_x; var_y; var_x] var_y "p[1]").
  reflexivity.
Defined.

Lemma dom_emplace_parameters (parameters : list SymVariable) (i : N) (m : gmap N N) :
  dom (emplace_parameters parameters i m)
  = dom m ∪ list_to_set (get_id <$> parameters).
Proof.
  revert i m. induction parameters as [|p rest IH]; intros i m; simpl.
  - set_solver.
  - rewrite IH. unfold emplace. destruct (m !! get_id p) as [y|] eqn:Hm.
    + assert (get_id p ∈ dom m) by (apply elem_of_dom; eauto). set_solver.
    + rewrite dom_insert_L. set_solver.
Qed.

(** The map binds exactly the identities of the parameters. When these are
    pairwise distinct, the map has one entry for each parameter and sends
    the identity of each parameter to its position. *)
Theorem map_of_parameters (parameters : list SymVariable) :
  dom (build_id_to_idx_map parameters) = list_to_set (get_id <$> parameters) /\
  (NoDup (get_id <$> parameters) ->
   size (build_id_to_idx_map parameters) = length parameters /\
   forall (k : nat) (v : SymVariable),
     parameters !! k = Some v ->
     build_id_to_idx_map parameters !! get_id v = Some (N.of_nat k)).
Proof.
  assert (Hdom : dom (build_id_to_idx_map parameters)
                 = list_to_set (get_id <$> parameters)).
  { unfold build_id_to_idx_map. rewrite dom_emplace_parameters. set_solver. }
  split; [exact Hdom|]. intros Hnodup. split.
  - rewrite <- size_dom, Hdom, size_list_to_set by exact Hnodup.
    apply length_fmap.
  - intros k v Hk. unfold build_id_to_idx_map.
    rewrite (emplace_parameters_first parameters 0 ∅ k v);
      [f_equal; lia | apply lookup_empty | exact Hk |].
    intros j v' Hj Hv' Heq.
    assert (j = k); [|lia].
    apply (NoDup_lookup _ j k (get_id v) Hnodup).
    + rewrite list_lookup_fmap, Hv'. simpl. now rewrite Heq.
    + now rewrite list_lookup_fmap, Hk.
Qed.

Lemma map_of_parameters_witness :
  size (build_id_to_idx_map [var_x; var_y; var_z]) = length [var_x; var_y; var_z] /\
  forall (k : nat) (v : SymVariable),
    [var_x; var_y; var_z] !! k = Some v ->
    build_id_to_idx_map [var_x; var_y; var_z] !! get_id v = Some (N.of_nat k).
Proof.
  apply (map_of_parameters [var_x; var_y; var_z]).
  simpl. repeat constructor; set_solver.
Defined.

(** ** More parameters *)

(** A text that is lowered under some bindings is lowered to the same text
    under bindings that extend them. *)
Lemma CodeGen_submap (ord : sequencing) (m m' : gmap N N) (e : Expression)
  (text : string) :
  m ⊆ m' ->
  CodeGenVisitor.CodeGen ord m e = Returns text ->
  CodeGenVisitor.CodeGen ord m' e = Returns text.
Proof.
  intros Hsub. revert text.
  induction e as [v|c|c items IH|c items IH|k a IH|k a b IHa IHb|f a b _ _|name vars]
    using Expression_induction; intros text H; try exact H.
  - simpl in *. unfold CodeGenVisitor.VisitVariable in *.
    destruct (m !! get_id v) as [x|] eqn:Hx; [|discriminate].
    now rewrite (lookup_weaken _ _ _ _ Hx Hsub).
  - simpl in *. unfold CodeGenVisitor.VisitAddition in *.
    apply bind_returns_inv in H as (oss & Hloop & H).
    now rewrite (VisitAddition_loop_order _ _ _ _ _ IH Hloop).
  - simpl in *. unfold CodeGenVisitor.VisitMultiplication in *.
    apply bind_returns_inv in H as (oss & Hloop & H).
    now rewrite (VisitMultiplication_loop_order ord ord _ _ _ _ _ IH Hloop).
  - rewrite CodeGen_unary in *.
    apply bind_returns_inv in H as (s & Hs & H). now rewrite (IH _ Hs).
  - rewrite CodeGen_binary in *.
    apply bind_returns_inv in H as (s & Hs & H).
    apply both_returns_inv in Hs as [Hs1 Hs2].
    rewrite (IHa _ Hs1), (IHb _ Hs2), both_returns. exact H.
Qed.

Lemma CodeGenData_loop_submap (ord : sequencing) (m m' : gmap N N)
  (data : list Expression) (fuel : nat) (i : Z) (os os' : string) :
  m ⊆ m' ->
  internal.CodeGenData_loop ord m data fuel i os = (os', internal.Normal) ->
  internal.CodeGenData_loop ord m' data fuel i os = (os', internal.Normal).
Proof.
  intros Hsub. revert i os. induction fuel as [|fuel IH]; intros i os H; [exact H|].
  simpl in *. destruct (data !! Z.to_nat i) as [d|];
    [|destruct (shift_order ord); discriminate].
  destruct (CodeGenVisitor.CodeGen ord m d) as [s|err] eqn:Hd.
  - rewrite (CodeGen_submap ord m m' d s Hsub Hd). now apply IH.
  - destruct (shift_order ord); discriminate.
Qed.

Lemma build_id_to_idx_map_app (parameters more : list SymVariable) :
  build_id_to_idx_map parameters ⊆ build_id_to_idx_map (parameters ++ more).
Proof.
  apply map_subseteq_spec. intros id x Hx.
  unfold build_id_to_idx_map. rewrite emplace_parameters_app.
  now apply emplace_parameters_keeps.
Qed.

(** Parameters added at the end of the list change no text: an expression
    that is lowered with the parameters is lowered to the same text with the
    longer list, and a batch function that is generated is written again
    character for character. *)
Theorem more_parameters (ord : sequencing) (parameters more : list SymVariable) :
  (forall e text,
      CodeGenVisitor.CodeGen ord (build_id_to_idx_map parameters) e = Returns text ->
      CodeGenVisitor.CodeGen ord (build_id_to_idx_map (parameters ++ more)) e
      = Returns text) /\
  (forall function_name data size os os',
      internal.CodeGenData ord function_name parameters data size os
      = (os', internal.Normal) ->
      internal.CodeGenData ord function_name (parameters ++ more) data size os
      = (os', internal.Normal)).
Proof.
  pose proof (build_id_to_idx_map_app parameters more) as Hsub. split.
  - intros e text. now apply CodeGen_submap.
  - intros function_name data size os os' H. unfold internal.CodeGenData in *.
    destruct (internal.CodeGenData_loop ord _ data _ 0 _) as [os1 [| |]] eqn:Hloop;
      try discriminate.
    now rewrite (CodeGenData_loop_submap _ _ _ _ _ _ _ _ Hsub Hloop).
Qed.

Lemma more_parameters_witness :
  CodeGenVisitor.CodeGen left_to_right (build_id_to_idx_map ([var_x; var_y] ++ [var_z; var_x]))
    (sample_sum var_x var_y)
  = Returns "(2 + p[0] + (3 * p[1]))".
Proof.
  destruct (more_parameters left_to_right [var_x; var_y] [var_z; var_x]) as [Hlower _].
  apply Hlower. reflexivity.
Defined.

(** ** Failure and the order of evaluation *)

(** Whether the generation fails does not depend on the order of evaluation,
    but the exception that is thrown does: a quotient of an unbound variable
    by an if-then-else throws UnboundVariable when the left operand is
    evaluated first and the exception of the if-then-else otherwise. *)
Theorem failure_order (ord ord' : sequencing) (function_name : string)
  (parameters : list SymVariable) (e : Expression) :
  ((exists err, CodeGen ord function_name parameters e = Throws err) ->
   exists err', CodeGen ord' function_name parameters e = Throws err') /\
  CodeGen left_to_right function_name [var_x]
    (BinaryExpression Div (ExpressionVar var_z) sample_if_then_else)
  = Throws UnboundVariable /\
  CodeGen right_to_left function_name [var_x]
    (BinaryExpression Div (ExpressionVar var_z) sample_if_then_else)
  = Throws UnsupportedIfThenElse.
Proof.
  split; [|split; reflexivity].
  intros [err H]. unfold CodeGen in *.
  destruct (CodeGenVisitor.CodeGen ord' (build_id_to_idx_map parameters) e)
    as [text|err'] eqn:H'; [|simpl; eauto].
  rewrite (CodeGen_order ord' ord _ _ _ H') in H. discriminate.
Qed.

Lemma failure_order_witness :
  exists err', CodeGen right_to_left "f" [var_x] (ExpressionVar var_y) = Throws err'.
Proof.
  apply (failure_order left_to_right right_to_left "f" [var_x] (ExpressionVar var_y)).
  exists UnboundVariable. reflexivity.
Defined.

(** ** Where the batch loop stops *)

(** The sink of a batch generation that fails: the header, one statement
    for each cell before the first one that does not lower and, when the
    left operand of [<<] is evaluated first, the beginning of the statement of
    that cell. The exception is the one of that cell; no footer is written. *)
Theorem batch_failure (ord : sequencing) (function_name : string)
  (parameters : list SymVariable) (data : list Expression) (size : Z)
  (os : string) (k : nat) (e : Expression) (err : runtime_error)
  (texts : list string) :
  (k < Z.to_nat size)%nat ->
  data !! k = Some e ->
  CodeGenVisitor.CodeGen ord (build_id_to_idx_map parameters) e = Throws err ->
  Forall2 (fun d t =>
             CodeGenVisitor.CodeGen ord (build_id_to_idx_map parameters) d = Returns t)
          (take k data) texts ->
  internal.CodeGenData ord function_name parameters data size os
  = (os +:+ "void " +:+ function_name +:+ "(const double* p, double* m) {" +:+ nl
        +:+ spec_statements 0 texts
        +:+ match shift_order ord with
            | LeftToRight => "    m[" +:+ dec_of_Z (Z.of_nat k) +:+ "] = "
            | RightToLeft => ""
            end,
     internal.Exception err).
Proof. apply CodeGenData_failure. Qed.

Lemma batch_failure_witness :
  internal.CodeGenData left_to_right "f" [var_x; var_y]
    [ExpressionVar var_y; sample_if_then_else; ExpressionVar var_x] 3 ""
  = ("" +:+ "void " +:+ "f" +:+ "(const double* p, double* m) {" +:+ nl
        +:+ spec_statements 0 ["p[1]"]
        +:+ "    m[" +:+ dec_of_Z (Z.of_nat 1) +:+ "] = ",
     internal.Exception UnsupportedIfThenElse).
Proof.
  apply (batch_failure left_to_right "f" [var_x; var_y]
           [ExpressionVar var_y; sample_if_then_else; ExpressionVar var_x] 3 ""
           1 sample_if_then_else UnsupportedIfThenElse ["p[1]"]).
  - simpl. lia.
  - reflexivity.
  - reflexivity.
  - constructor; [reflexivity | constructor].
Defined.

(** The generator trusts [size]: when it is larger than the array and every
    cell lowers, the loop writes the statements of all the cells and then
    reads the array past its end, after the beginning of the next statement
    when the left operand of [<<] is evaluated first. What the program does
    from that read on is undefined. *)
Theorem batch_reads_past_the_end (ord : sequencing) (function_name : string)
  (parameters : list SymVariable) (data : list Expression) (size : Z)
  (os : string) (texts : list string) :
  (length data < Z.to_nat size)%nat ->
  Forall2 (fun d t =>
             CodeGenVisitor.CodeGen ord (build_id_to_idx_map parameters) d = Returns t)
          data texts ->
  internal.CodeGenData ord function_name parameters data size os
  = (os +:+ "void " +:+ function_name +:+ "(const double* p, double* m) {" +:+ nl
        +:+ spec_statements 0 texts
        +:+ match shift_order ord with
            | LeftToRight => "    m[" +:+ dec_of_Z (Z.of_nat (length data)) +:+ "] = "
            | RightToLeft => ""
            end,
     internal.OutOfBounds (Z.of_nat (length data))).
Proof.
  intros Hsize Htexts. unfold internal.CodeGenData.
  change 0 with (Z.of_nat 0).
  rewrite (CodeGenData_loop_prefix _ _ _ (length data) _ 0 _ texts);
    [| now rewrite drop_0, firstn_all | lia | lia].
  destruct (Z.to_nat size - length data)%nat as [|fuel] eqn:Hfuel; [lia|].
  simpl. rewrite Nat2Z.id, (lookup_ge_None_2 data (length data)) by lia.
  destruct (shift_order ord); f_equal; rewrite ?append_assoc; [reflexivity|].
  now rewrite append_nil_r.
Qed.

Lemma batch_reads_past_the_end_witness :
  internal.CodeGenData left_to_right "f" [var_x] [ExpressionVar var_x] 2 ""
  = ("" +:+ "void " +:+ "f" +:+ "(const double* p, double* m) {" +:+ nl
        +:+ spec_statements 0 ["p[0]"]
        +:+ "    m[" +:+ dec_of_Z (Z.of_nat (length [ExpressionVar var_x])) +:+ "] = ",
     internal.OutOfBounds (Z.of_nat (length [ExpressionVar var_x]))).
Proof.
  apply (batch_reads_past_the_end left_to_right "f" [var_x] [ExpressionVar var_x] 2 ""
           ["p[0]"]).
  - simpl. lia.
  - constructor; [reflexivity | constructor].
Defined.

(** ** What the sink held before *)

Lemma CodeGenData_loop_sink (ord : sequencing) (m : gmap N N)
  (data : list Expression) (fuel : nat) (i : Z) (os : string) :
  internal.CodeGenData_loop ord m data fuel i os
  = (os +:+ (internal.CodeGenData_loop ord m data fuel i "").1,
     (internal.CodeGenData_loop ord m data fuel i "").2).
Proof.
  revert i os. induction fuel as [|fuel IH]; intros i os.
  - simpl. now rewrite append_nil_r.
  - simpl. destruct (data !! Z.to_nat i) as [d|];
      [|destruct (shift_order ord); simpl; [reflexivity | now rewrite append_nil_r]].
    destruct (CodeGenVisitor.CodeGen ord m d) as [s|err].
    + rewrite IH. rewrite (IH _ ("" +:+ _)). simpl. f_equal.
      now rewrite ?append_assoc.
    + destruct (shift_order ord); simpl; [reflexivity | now rewrite append_nil_r].
Qed.

(** The two batch functions only append to the sink, and what they append
    does not depend on what the sink holds: a call on a sink gives the sink
    followed by what the call writes to an empty one, and ends the same way.
    So [CodeGenData] followed by [CodeGenMeta] appends the text of the
    function and then the text of its meta data. *)
Theorem sink_is_appended_to (ord : sequencing) (function_name : string)
  (parameters : list SymVariable) (data : list Expression)
  (size parameter_size rows cols : Z) (os : string) :
  internal.CodeGenData ord function_name parameters data size os
  = (os +:+ (internal.CodeGenData ord function_name parameters data size "").1,
     (internal.CodeGenData ord function_name parameters data size "").2) /\
  internal.CodeGenMeta function_name parameter_size rows cols os
  = os +:+ internal.CodeGenMeta function_name parameter_size rows cols "" /\
  internal.CodeGenMeta function_name parameter_size rows cols
    (internal.CodeGenData ord function_name parameters data size os).1
  = os +:+ (internal.CodeGenData ord function_name parameters data size "").1
       +:+ internal.CodeGenMeta function_name parameter_size rows cols "".
Proof.
  assert (Hdata :
    internal.CodeGenData ord function_name parameters data size os
    = (os +:+ (internal.CodeGenData ord function_name parameters data size "").1,
       (internal.CodeGenData ord function_name parameters data size "").2)).
  { unfold internal.CodeGenData.
    rewrite CodeGenData_loop_sink.
    rewrite (CodeGenData_loop_sink _ _ _ _ _ ("" +:+ _)).
    destruct (internal.CodeGenData_loop ord _ data _ 0 "") as [w [| |]];
      simpl; f_equal; now rewrite ?append_assoc. }
  assert (Hmeta : forall os0,
    internal.CodeGenMeta function_name parameter_size rows cols os0
    = os0 +:+ internal.CodeGenMeta function_name parameter_size rows cols "").
  { intros os0. unfold internal.CodeGenMeta. now rewrite ?append_assoc. }
  split; [exact Hdata|]. split; [apply Hmeta|].
  rewrite Hmeta, Hdata. simpl. now rewrite append_assoc.
Qed.

(** ** The operators *)

(** The text of a unary node is the call of the C function of its kind
    ([fabs] for Abs, the name of the kind for the others) on the text of its
    argument, the text of a binary node is the call of [pow], [atan2], [fmin]
    or [fmax] on the texts of its arguments, or their parenthesized quotient.
    A node throws what an argument throws. *)
Theorem operator_texts (ord : sequencing) (m : gmap N N) :
  (forall k a s,
      CodeGenVisitor.CodeGen ord m a = Returns s ->
      CodeGenVisitor.CodeGen ord m (UnaryExpression k a)
      = Returns (unary_function k +:+ "(" +:+ s +:+ ")")) /\
  (forall k a err,
      CodeGenVisitor.CodeGen ord m a = Throws err ->
      CodeGenVisitor.CodeGen ord m (UnaryExpression k a) = Throws err) /\
  (forall k a b s1 s2,
      CodeGenVisitor.CodeGen ord m a = Returns s1 ->
      CodeGenVisitor.CodeGen ord m b = Returns s2 ->
      CodeGenVisitor.CodeGen ord m (BinaryExpression k a b)
      = Returns (binary_text k s1 s2)) /\
  (forall k a b err,
      CodeGenVisitor.CodeGen ord m (BinaryExpression k a b) = Throws err ->
      CodeGenVisitor.CodeGen ord m a = Throws err \/
      CodeGenVisitor.CodeGen ord m b = Throws err).
Proof.
  split; [|split; [|split]].
  - intros k a s Ha. now rewrite CodeGen_unary, Ha.
  - intros k a err Ha. now rewrite CodeGen_unary, Ha.
  - intros k a b s1 s2 Ha Hb. now rewrite CodeGen_binary, Ha, Hb, both_returns.
  - intros k a b err H. rewrite CodeGen_binary in H.
    apply bind_throws_inv in H as [H | (s & _ & H)]; [|discriminate].
    now apply both_throws_inv in H.
Qed.

Lemma operator_texts_witness :
  CodeGenVisitor.CodeGen left_to_right {[1%N := 0%N; 2%N := 1%N]}
    (UnaryExpression Abs (BinaryExpression Min (ExpressionVar var_x) (ExpressionVar var_y)))
  = Returns "fabs(fmin(p[0], p[1]))".
Proof.
  destruct (operator_texts left_to_right {[1%N := 0%N; 2%N := 1%N]})
    as (Hunary & _ & Hbinary & _).
  apply (Hunary Abs _ "fmin(p[0], p[1])").
  apply (Hbinary Min _ _ "p[0]" "p[1]"); reflexivity.
Defined.

(** ** Parentheses *)

Lemma paren_depth_app (s1 s2 : string) (d : nat) :
  paren_depth (s1 +:+ s2) d
  = match paren_depth s1 d with
    | Some d' => paren_depth s2 d'
    | None => None
    end.
Proof.
  revert d. induction s1 as [|c s1 IH]; intros d; [reflexivity|].
  rewrite append_cons. simpl.
  destruct (Ascii.eqb c "("); [apply IH|].
  destruct (Ascii.eqb c ")"); [|apply IH].
  destruct d; [reflexivity | apply IH].
Qed.

Lemma balanced_app (s1 s2 : string) :
  balanced s1 -> balanced s2 -> balanced (s1 +:+ s2).
Proof. intros H1 H2 d. now rewrite paren_depth_app, H1, H2. Qed.

Lemma balanced_parens (s1 s2 s3 : string) :
  paren_free s1 = true -> balanced s2 -> balanced s3 ->
  balanced (s1 +:+ "(" +:+ s2 +:+ ")" +:+ s3).
Proof.
  intros H1 H2 H3 d. rewrite paren_depth_app.
  assert (Hfree : forall s n, paren_free s = true -> paren_depth s n = Some n).
  { clear. induction s as [|c s IH]; intros n H; [reflexivity|].
    simpl in *. destruct (Ascii.eqb c "("); [discriminate|].
    destruct (Ascii.eqb c ")"); [discriminate|]. now apply IH. }
  rewrite (Hfree _ _ H1).
  change ("(" +:+ s2 +:+ ")" +:+ s3) with (String "(" (s2 +:+ ")" +:+ s3)).
  simpl. rewrite paren_depth_app, H2.
  change (")" +:+ s3) with (String ")" s3). simpl. apply H3.
Qed.

Lemma paren_free_balanced (s : string) : paren_free s = true -> balanced s.
Proof.
  intros H d. revert d. induction s as [|c s IH]; intros d; [reflexivity|].
  simpl in *. destruct (Ascii.eqb c "("); [discriminate|].
  destruct (Ascii.eqb c ")"); [discriminate|]. now apply IH.
Qed.

Lemma paren_free_app (s1 s2 : string) :
  paren_free (s1 +:+ s2) = paren_free s1 && paren_free s2.
Proof.
  induction s1 as [|c s1 IH]; [reflexivity|].
  rewrite append_cons. simpl. rewrite IH. now rewrite andb_assoc.
Qed.

Lemma read_digits_paren_free (s : string) (acc a : N) :
  read_digits s acc = Some a -> paren_free s = true.
Proof.
  revert acc. induction s as [|c s IH]; intros acc H; [reflexivity|].
  simpl in *. destruct (digit_of c) as [d|] eqn:Hd; [|discriminate].
  rewrite (IH _ H).
  destruct (Ascii.eqb_spec c "(") as [->|]; [discriminate|].
  destruct (Ascii.eqb_spec c ")") as [->|]; [discriminate|]. reflexivity.
Qed.

Lemma dec_of_N_paren_free (n : N) : paren_free (dec_of_N n) = true.
Proof. exact (read_digits_paren_free _ _ _ (read_digits_dec_of_N n)). Qed.

Lemma dec_of_Z_paren_free (z : Z) : paren_free (dec_of_Z z) = true.
Proof.
  destruct z as [|p|p]; [reflexivity | |].
  - rewrite dec_of_Z_nonneg by lia. apply dec_of_N_paren_free.
  - rewrite dec_of_Z_neg. simpl. apply dec_of_N_paren_free.
Qed.

Lemma digit_char_paren_free (d : Z) : paren_free (String (digit_char d) "") = true.
Proof.
  unfold digit_char.
  repeat match goal with
         | |- context [match ?x with _ => _ end] => destruct x
         end; reflexivity.
Qed.

Lemma digits_fixed_paren_free (w : nat) (n : Z) : paren_free (digits_fixed w n) = true.
Proof.
  revert n. induction w as [|w IH]; intros n; [reflexivity|].
  simpl digits_fixed. now rewrite paren_free_app, IH, digit_char_paren_free.
Qed.

Lemma zeros_paren_free (n : nat) : paren_free (zeros n) = true.
Proof.
  induction n as [|n IH]; [reflexivity|].
  simpl zeros. now rewrite paren_free_app, IH.
Qed.

Lemma strip_zeros_paren_free (s : string) :
  paren_free s = true -> paren_free (strip_zeros s) = true.
Proof.
  induction s as [|c s IH]; intros H; [reflexivity|].
  simpl in H. apply andb_true_iff in H as [Hc Hs]. specialize (IH Hs).
  simpl. destruct (strip_zeros s) as [|c' t].
  - destruct (Ascii.eqb c "0"); [reflexivity|]. simpl. now rewrite Hc.
  - simpl in *. now rewrite Hc, IH.
Qed.

Lemma with_point_paren_free (i f : string) :
  paren_free i = true -> paren_free f = true -> paren_free (with_point i f) = true.
Proof.
  intros Hi Hf. unfold with_point. destruct f as [|c f]; [exact Hi|].
  rewrite !paren_free_app, Hi, Hf. reflexivity.
Qed.

Lemma sign_text_paren_free (s : bool) : paren_free (sign_text s) = true.
Proof. now destruct s. Qed.

Lemma to_string_double_paren_free (c : double) :
  paren_free (to_string_double c) = true.
Proof.
  unfold to_string_double, printf_f, fixed_parts.
  destruct c as [s|s|s|s mc ec]; try (now destruct s).
  cbv beta iota zeta delta [uncurry]. simpl fst. simpl snd.
  rewrite paren_free_app, sign_text_paren_free.
  apply with_point_paren_free;
    [apply dec_of_Z_paren_free | apply digits_fixed_paren_free].
Qed.

Lemma put_double_paren_free (c : double) : paren_free (put_double c) = true.
Proof.
  unfold put_double, printf_g, fixed_parts, exponent_text, pad_left.
  destruct c as [s|s|s|s mc ec]; try (now destruct s).
  destruct (exponent_e 6 mc ec) as [N X].
  destruct ((-4 <=? X) && (X <? Z.of_nat 6)).
  - rewrite paren_free_app, sign_text_paren_free.
    apply with_point_paren_free; [apply dec_of_Z_paren_free|].
    apply strip_zeros_paren_free, digits_fixed_paren_free.
  - rewrite !paren_free_app, sign_text_paren_free, zeros_paren_free,
      dec_of_Z_paren_free.
    rewrite with_point_paren_free;
      [| apply dec_of_Z_paren_free
       | apply strip_zeros_paren_free, digits_fixed_paren_free].
    now destruct (X <? 0).
Qed.

Lemma balanced_ext (s s' : string) : s = s' -> balanced s' -> balanced s.
Proof. now intros ->. Qed.

(** A text [s1 ( s2 ) s3], however its concatenations are nested. *)
Ltac in_parens s1 s2 s3 :=
  apply (balanced_ext _ (s1 +:+ "(" +:+ s2 +:+ ")" +:+ s3));
  [ rewrite ?append_assoc, ?append_nil_r; reflexivity
  | apply balanced_parens ].

Lemma spec_terms_balanced (terms : list (double * string)) :
  Forall (fun ct => balanced ct.2) terms -> balanced (spec_terms terms).
Proof.
  induction 1 as [|[c t] rest Ht _ IH]; [intros d; reflexivity|].
  simpl in Ht. simpl spec_terms. unfold spec_term.
  destruct (double_eqb c one).
  - apply balanced_app; [now apply paren_free_balanced|].
    now apply balanced_app.
  - in_parens " + " (put_double c +:+ " * " +:+ t) (spec_terms rest);
      [reflexivity | | exact IH].
    apply balanced_app; [apply paren_free_balanced, put_double_paren_free|].
    apply balanced_app; [now apply paren_free_balanced | exact Ht].
Qed.

Lemma spec_factors_balanced (factors : list (string * option string)) :
  Forall (fun bx => balanced bx.1 /\ forall x, bx.2 = Some x -> balanced x) factors ->
  balanced (spec_factors factors).
Proof.
  induction 1 as [|[b x] rest [Hb Hx] _ IH]; [intros d; reflexivity|].
  simpl in Hb, Hx. simpl spec_factors. unfold spec_factor.
  destruct x as [x|].
  - in_parens " * pow" (b +:+ ", " +:+ x) (spec_factors rest);
      [reflexivity | | exact IH].
    apply balanced_app; [exact Hb|].
    apply balanced_app; [now apply paren_free_balanced | now apply Hx].
  - apply balanced_app; [now apply paren_free_balanced|].
    now apply balanced_app.
Qed.

(** Every text that the lowering returns has balanced parentheses: each
    closing parenthesis closes one that the text has opened, and none is
    left open. *)
Theorem lowered_text_balanced (ord : sequencing) (m : gmap N N) (e : Expression)
  (text : string) :
  CodeGenVisitor.CodeGen ord m e = Returns text ->
  balanced text /\ paren_depth text 0 = Some 0%nat.
Proof.
  intros H. assert (Hb : balanced text); [|split; [exact Hb | apply Hb]].
  revert text H.
  induction e as [v|c|c items IH|c items IH|k a IH|k a b IHa IHb|f a b _ _|name vars]
    using Expression_induction; intros text H; try discriminate.
  - simpl in H. unfold CodeGenVisitor.VisitVariable in H.
    destruct (m !! get_id v) as [i|]; [|discriminate]. injection H as <-.
    apply paren_free_balanced.
    now rewrite !paren_free_app, dec_of_N_paren_free.
  - injection H as <-. apply paren_free_balanced, to_string_double_paren_free.
  - assert (Htexts : exists texts,
      Forall2 (fun it t => CodeGenVisitor.CodeGen ord m it.1 = Returns t) items texts).
    { simpl in H. unfold CodeGenVisitor.VisitAddition in H.
      apply bind_returns_inv in H as (oss & Hoss & _).
      now apply VisitAddition_loop_returns_inv in Hoss. }
    destruct Htexts as [texts Htexts].
    change (CodeGenVisitor.CodeGen ord m (ExpressionAdd c items))
      with (CodeGenVisitor.VisitAddition (CodeGenVisitor.CodeGen ord m) c items) in H.
    unfold CodeGenVisitor.VisitAddition in H.
    rewrite (VisitAddition_loop_text _ items texts _ Htexts) in H.
    injection H as <-.
    in_parens "" (put_double c +:+ spec_terms (zip items.*2 texts)) "";
      [reflexivity | | intros d; reflexivity].
    apply balanced_app; [apply paren_free_balanced, put_double_paren_free|].
    apply spec_terms_balanced.
    clear -IH Htexts. induction Htexts as [|it t items texts Ht _ IHl]; simpl.
    + constructor.
    + apply Forall_cons in IH as [IHit IHrest].
      constructor; [exact (IHit _ Ht) | exact (IHl IHrest)].
  - assert (Htexts : exists texts,
      Forall2 (factor_lowers (CodeGenVisitor.CodeGen ord m)) items texts).
    { simpl in H. unfold CodeGenVisitor.VisitMultiplication in H.
      apply bind_returns_inv in H as (oss & Hoss & _).
      now apply VisitMultiplication_loop_returns_inv in Hoss. }
    destruct Htexts as [texts Htexts].
    change (CodeGenVisitor.CodeGen ord m (ExpressionMul c items))
      with (CodeGenVisitor.VisitMultiplication ord (CodeGenVisitor.CodeGen ord m)
              c items) in H.
    unfold CodeGenVisitor.VisitMultiplication in H.
    rewrite (VisitMultiplication_loop_text _ _ items texts _ Htexts) in H.
    injection H as <-.
    in_parens "" (put_double c +:+ spec_factors (zip_with factor_of items texts)) "";
      [reflexivity | | intros d; reflexivity].
    apply balanced_app; [apply paren_free_balanced, put_double_paren_free|].
    apply spec_factors_balanced.
    clear -IH Htexts. induction Htexts as [|it t items texts [Ht1 Ht2] _ IHl]; simpl.
    + constructor.
    + apply Forall_cons in IH as [[IH1 IH2] IHrest].
      constructor; [|exact (IHl IHrest)].
      unfold factor_of. simpl. split; [exact (IH1 _ Ht1)|].
      intros x Hx. destruct (is_one it.2); [discriminate|].
      injection Hx as <-. exact (IH2 _ (Ht2 eq_refl)).
  - rewrite CodeGen_unary in H.
    apply bind_returns_inv in H as (s & Hs & H). injection H as <-.
    in_parens (unary_function k) s "";
      [now destruct k | exact (IH _ Hs) | intros d; reflexivity].
  - rewrite CodeGen_binary in H.
    apply bind_returns_inv in H as (s & Hs & H). injection H as <-.
    apply both_returns_inv in Hs as [Hs1 Hs2].
    assert (Hargs : forall sep, paren_free sep = true ->
                                balanced (s.1 +:+ sep +:+ s.2)).
    { intros sep Hsep. apply balanced_app; [exact (IHa _ Hs1)|].
      apply balanced_app; [now apply paren_free_balanced | exact (IHb _ Hs2)]. }
    destruct k; unfold binary_text;
      [ in_parens "" (s.1 +:+ " / " +:+ s.2) ""
      | in_parens "pow" (s.1 +:+ ", " +:+ s.2) ""
      | in_parens "atan2" (s.1 +:+ ", " +:+ s.2) ""
      | in_parens "fmin" (s.1 +:+ ", " +:+ s.2) ""
      | in_parens "fmax" (s.1 +:+ ", " +:+ s.2) "" ];
      solve [reflexivity | now apply Hargs | intros d; reflexivity].
Qed.

Lemma lowered_text_balanced_witness :
  balanced "(2 + p[0] + (3 * p[1]))" /\
  paren_depth "(2 + p[0] + (3 * p[1]))" 0 = Some 0%nat.
Proof.
  apply (lowered_text_balanced left_to_right {[1%N := 0%N; 2%N := 1%N]}
           (sample_sum var_x var_y)).
  reflexivity.
Defined.
